(** * s4cmb instrument systematics: crosstalk and differential-beam leakage

    A shallow embedding of [s4cmb/systematics.py].

    Conventions of the embedding.
    - numpy [float64] arithmetic is modelled twice. Every routine is
      embedded over the real numbers [R]: what is proved there holds in
      exact arithmetic. The spin selector, the kernel rotator, the
      leakage projector and the injection into the pairs are embedded a
      second time over IEEE 754 binary64 numbers (module [F64]), with
      numpy's order of evaluation: a statement of exact equality is
      settled there.
    - a 2-d numpy array is a list of rows, every row of the same length.
    - a Python exception is an [exn]; a function that mutates a caller's
      buffer returns the final contents of that buffer together with the
      exception that escaped, if any.
    - [numpy.random.RandomState(seed)] is a deterministic stream of
      standard normal deviates, [gauss seed k] being the k-th one;
      [state.normal(loc, scale, n)] is [loc + scale * z] on the first [n]
      of them, as the legacy generator computes it.
    - [numpy.linalg.lstsq] is described by its contract (the least-squares
      solution of minimal 2-norm).
    - the Fortran kernel [systematics_f] is a compiled extension that is
      not part of the Python sources; it is a parameter of the model, and
      [inject_crosstalk_inside_squid_f_spec] is the kernel the
      specification describes.
    - [np.cos] and [np.sin] on float64 are parameters of [F64]: their
      values come from the platform's mathematical library. *)

From Stdlib Require Import Floats.
From Stdlib Require Import List ZArith Reals Lra Lia Bool String Ascii.
Import ListNotations.

Open Scope R_scope.

(** [length] is the length of a list throughout, not of a string. *)
Import Corelib.Init.Datatypes.

(** Decimal literals stand for the nearest float64, as in Python. *)
#[local] Set Warnings "-inexact-float".

(** ** Python values and exceptions *)

Inductive exn : Type :=
| IndexError
| AssertionError
| ValueError.

Inductive result (A : Type) : Type :=
| Ok (a : A)
| Raise (e : exn).

Arguments Ok {A} a.
Arguments Raise {A} e.

Definition bind {A B : Type} (m : result A) (k : A -> result B) : result B :=
  match m with
  | Ok a => k a
  | Raise e => Raise e
  end.

Notation "x <- m ;; k" := (bind m (fun x => k))
  (at level 61, m at next level, right associativity).

(** A sequence subscript [l[i]] with a non-negative machine index. *)
Definition getitem {A : Type} (l : list A) (i : nat) : result A :=
  match nth_error l i with
  | Some a => Ok a
  | None => Raise IndexError
  end.

(** ** Arrays *)

(** A timestream array: one row of samples per detector. *)
Definition tod : Type := list (list R).

Fixpoint map2 {A B C : Type} (f : A -> B -> C) (l : list A) (l' : list B)
  : list C :=
  match l, l' with
  | a :: t, b :: t' => f a b :: map2 f t t'
  | _, _ => []
  end.

Definition vadd (u v : list R) : list R := map2 Rplus u v.
Definition vsub (u v : list R) : list R := map2 Rminus u v.
Definition vmul (u v : list R) : list R := map2 Rmult u v.
Definition vscale (w : R) (v : list R) : list R := map (Rmult w) v.

Definition get_row (a : tod) (i : nat) : list R := nth i a [].

(** [a[i] = r]; the callers only pass row numbers taken from
    [range(len(a))]. *)
Fixpoint set_row (a : tod) (i : nat) (r : list R) : tod :=
  match a, i with
  | [], _ => []
  | _ :: t, O => r :: t
  | x :: t, S j => x :: set_row t j r
  end.

(** [f] applied to the rows of an array with their row numbers, counted
    from [i]. *)
Fixpoint imap {A B : Type} (f : nat -> A -> B) (i : nat) (l : list A)
  : list B :=
  match l with
  | [] => []
  | x :: t => f i x :: imap f (S i) t
  end.

(** [a.shape] of a 2-d array. *)
Definition shape2 {A : Type} (a : list (list A)) : nat * nat :=
  (length a, match a with [] => O | r :: _ => length r end).

(** Every row has [nt] entries. *)
Definition rect {A : Type} (nt : nat) (a : list (list A)) : Prop :=
  Forall (fun r => length r = nt) a.

Definition shape_eqb (s s' : nat * nat) : bool :=
  Nat.eqb (fst s) (fst s') && Nat.eqb (snd s) (snd s').

(** ** Crosstalk network *)

(** The dictionary [combs]: SQUID id to the list of
    [(bolo_ids[bolo], bolo)], in insertion order. *)
Definition combs_t : Type := list (string * list (Z * nat)).

(** [if sq not in combs: combs[sq] = []] followed by
    [combs[sq].append(e)]. *)
Fixpoint combs_append (combs : combs_t) (sq : string) (e : Z * nat)
  : combs_t :=
  match combs with
  | [] => [(sq, [e])]
  | (k, l) :: rest =>
      if String.eqb k sq then (k, l ++ [e]) :: rest
      else (k, l) :: combs_append rest sq e
  end.

(** [for bolo in range(len(bolo_data)): ...] over the remaining [bolos]. *)
Fixpoint build_combs (squid_ids : list string) (bolo_ids : list Z)
  (bolos : list nat) (combs : combs_t) : result combs_t :=
  match bolos with
  | [] => Ok combs
  | bolo :: rest =>
      sq <- getitem squid_ids bolo ;;
      ch <- getitem bolo_ids bolo ;;
      build_combs squid_ids bolo_ids rest (combs_append combs sq (ch, bolo))
  end.

(** [tsout = 0.0 + bolo_data]. *)
Definition copy_plus_zero (bolo_data : tod) : tod :=
  map (map (fun x => 0 + x)) bolo_data.

(** [tsout[i] += w * tsout[i2]]. *)
Definition leak_into (tsout : tod) (i : nat) (w : R) (i2 : nat) : tod :=
  set_row tsout i (vadd (get_row tsout i) (vscale w (get_row tsout i2))).

(** [separation_length > 0 and separation_length <= radius]. *)
Definition coupled (radius : Z) (separation_length : Z) : bool :=
  (0 <? separation_length)%Z && (separation_length <=? radius)%Z.

Section CrosstalkModel.

(** The k-th standard normal deviate of [RandomState(seed)]. *)
Variable gauss : Z -> nat -> R.

(** [systematics_f.inject_crosstalk_inside_squid_f], which updates
    [tsout] in place. *)
Variable inject_crosstalk_inside_squid_f :
  tod -> list Z -> list nat -> Z -> list R -> Z -> nat -> nat -> nat -> tod.

(** [np.random.RandomState(seed).normal(mu, sigma, n)]. *)
Definition normal (seed : Z) (mu sigma : R) (n : nat) : list R :=
  map (fun k => mu + sigma * gauss seed k) (seq 0 n).

(** The amplitudes drawn by either injection routine. *)
Definition cross_amp_of (seed : Z) (mu sigma : R) (bolo_data : tod)
  : list R :=
  normal seed (mu / 100) (sigma / 100) (length bolo_data).

(** *** Leakage inside a SQUID *)

(** [for ch2, i2 in combs[sq]: ...] for one [(ch, i)]. *)
Fixpoint inside_inner (radius beta : Z) (cross_amp : list R)
  (ch : Z) (i : nat) (members : list (Z * nat)) (tsout : tod) : tod :=
  match members with
  | [] => tsout
  | (ch2, i2) :: rest =>
      let separation_length := Z.abs (ch - ch2) in
      inside_inner radius beta cross_amp ch i rest
        (if coupled radius separation_length
         then leak_into tsout i
                (nth i2 cross_amp 0 /
                 powerRZ (IZR separation_length) beta) i2
         else tsout)
  end.

(** [for ch, i in combs[sq]: ...] over the remaining [todo], the inner
    loop running on all of [members]. *)
Fixpoint inside_outer (radius beta : Z) (cross_amp : list R)
  (members todo : list (Z * nat)) (tsout : tod) : tod :=
  match todo with
  | [] => tsout
  | (ch, i) :: rest =>
      inside_outer radius beta cross_amp members rest
        (inside_inner radius beta cross_amp ch i members tsout)
  end.

(** [for sq in combs: ...], python branch. *)
Fixpoint inside_python (radius beta : Z) (cross_amp : list R)
  (combs : combs_t) (tsout : tod) : tod :=
  match combs with
  | [] => tsout
  | (_, members) :: rest =>
      inside_python radius beta cross_amp rest
        (inside_outer radius beta cross_amp members members tsout)
  end.

(** [for sq in combs: ...], fortran branch. *)
Fixpoint inside_fortran (radius beta : Z) (cross_amp : list R)
  (nbolo nt : nat) (combs : combs_t) (tsout : tod) : tod :=
  match combs with
  | [] => tsout
  | (_, members) :: rest =>
      let local_indices := map fst members in
      let global_indices := map snd members in
      inside_fortran radius beta cross_amp nbolo nt rest
        (inject_crosstalk_inside_squid_f tsout local_indices
           global_indices radius cross_amp beta
           (length local_indices) nbolo nt)
  end.

(** The body of [inject_crosstalk_inside_SQUID] up to the write-back:
    the amplitudes and the array [tsout]. *)
Definition inside_tsout (bolo_data : tod) (squid_ids : list string)
  (bolo_ids : list Z) (mu sigma : R) (radius beta : Z) (seed : Z)
  (language : string) : result (list R * tod) :=
  let mu := mu / 100 in
  let sigma := sigma / 100 in
  combs <- build_combs squid_ids bolo_ids
             (seq 0 (length bolo_data)) [] ;;
  let tsout := copy_plus_zero bolo_data in
  let cross_amp := normal seed mu sigma (length bolo_data) in
  Ok (cross_amp,
      if String.eqb language "python"
      then inside_python radius beta cross_amp combs tsout
      else if String.eqb language "fortran"
      then inside_fortran radius beta cross_amp (length bolo_data)
             (length (get_row bolo_data 0)) combs tsout
      else tsout).

(** *** Leakage between SQUIDs *)

(** [for ch2, i2 in combs[sq2]: ...]. *)
Fixpoint s2s_members (squid_attenuation : R) (cross_amp : list R)
  (i : nat) (members2 : list (Z * nat)) (tsout : tod) : tod :=
  match members2 with
  | [] => tsout
  | (_, i2) :: rest =>
      s2s_members squid_attenuation cross_amp i rest
        (leak_into tsout i (nth i2 cross_amp 0 / squid_attenuation) i2)
  end.

(** [for sq2 in combs: if sq2 == sq1: continue ...]. *)
Fixpoint s2s_second (squid_attenuation : R) (cross_amp : list R)
  (sq1 : string) (i : nat) (combs2 : combs_t) (tsout : tod) : tod :=
  match combs2 with
  | [] => tsout
  | (sq2, members2) :: rest =>
      s2s_second squid_attenuation cross_amp sq1 i rest
        (if String.eqb sq2 sq1 then tsout
         else s2s_members squid_attenuation cross_amp i members2 tsout)
  end.

(** [for ch, i in combs[sq1]: ...]. *)
Fixpoint s2s_first_members (squid_attenuation : R) (cross_amp : list R)
  (combs : combs_t) (sq1 : string) (members1 : list (Z * nat))
  (tsout : tod) : tod :=
  match members1 with
  | [] => tsout
  | (_, i) :: rest =>
      s2s_first_members squid_attenuation cross_amp combs sq1 rest
        (s2s_second squid_attenuation cross_amp sq1 i combs tsout)
  end.

(** [for sq1 in combs: ...] over the remaining [todo]. *)
Fixpoint s2s_first (squid_attenuation : R) (cross_amp : list R)
  (combs todo : combs_t) (tsout : tod) : tod :=
  match todo with
  | [] => tsout
  | (sq1, members1) :: rest =>
      s2s_first squid_attenuation cross_amp combs rest
        (s2s_first_members squid_attenuation cross_amp combs sq1
           members1 tsout)
  end.

Definition s2s_tsout (bolo_data : tod) (squid_ids : list string)
  (bolo_ids : list Z) (mu sigma : R) (squid_attenuation : R) (seed : Z)
  : result (list R * tod) :=
  let mu := mu / 100 in
  let sigma := sigma / 100 in
  combs <- build_combs squid_ids bolo_ids
             (seq 0 (length bolo_data)) [] ;;
  let tsout := copy_plus_zero bolo_data in
  let cross_amp := normal seed mu sigma (length bolo_data) in
  Ok (cross_amp, s2s_first squid_attenuation cross_amp combs combs tsout).

(** *** The caller's buffers *)

(** [bolo_data] and the optional [new_array], which is
    [bolo_data]-like when given. *)
Record buffers : Type := Buffers {
  bolo_data : tod;
  new_array : option tod
}.

(** [if new_array is not None: new_array[:] = tsout]
    [else: bolo_data[:] = tsout]. *)
Definition write_back (b : buffers) (tsout : tod) : buffers :=
  match new_array b with
  | Some _ => Buffers (bolo_data b) (Some tsout)
  | None => Buffers tsout None
  end.

(** The array the routine delivers its timestreams in. *)
Definition delivered (b : buffers) : tod :=
  match new_array b with
  | Some a => a
  | None => bolo_data b
  end.

Definition inject_crosstalk_inside_SQUID (b : buffers)
  (squid_ids : list string) (bolo_ids : list Z) (mu sigma : R)
  (radius beta : Z) (seed : Z) (language : string)
  : buffers * option exn :=
  match inside_tsout (bolo_data b) squid_ids bolo_ids mu sigma radius
          beta seed language with
  | Ok (_, tsout) => (write_back b tsout, None)
  | Raise e => (b, Some e)
  end.

Definition inject_crosstalk_SQUID_to_SQUID (b : buffers)
  (squid_ids : list string) (bolo_ids : list Z) (mu sigma : R)
  (squid_attenuation : R) (seed : Z) : buffers * option exn :=
  match s2s_tsout (bolo_data b) squid_ids bolo_ids mu sigma
          squid_attenuation seed with
  | Ok (_, tsout) => (write_back b tsout, None)
  | Raise e => (b, Some e)
  end.

End CrosstalkModel.

(** [new_array], when given, has the shape of [bolo_data], so that the
    write-back [new_array[:] = tsout] goes through. *)
Definition new_array_like (b : buffers) : Prop :=
  match new_array b with
  | Some a => shape2 a = shape2 (bolo_data b)
  | None => True
  end.

(** Modelled from the spec: the compiled extension [systematics_f] is
    not part of the Python sources. By section 4.1, detectors [i] and
    [j] of one SQUID couple iff
    [0 < |channel(i) - channel(j)| <= radius], with the weight
    [cross_amp[j] / |channel(i) - channel(j)|^beta], and every coupled
    signal is read from the timestreams as they were on entry. The
    kernel is handed the channels ([local_indices]) and the rows
    ([global_indices]) of the members of one SQUID, and the three
    dimensions. *)
Definition inject_crosstalk_inside_squid_f_spec (tsout : tod)
  (local_indices : list Z) (global_indices : list nat) (radius : Z)
  (cross_amp : list R) (beta : Z) (n nbolo nt : nat) : tod :=
  let members := combine local_indices global_indices in
  fold_left
    (fun acc m =>
       fold_left
         (fun acc m2 =>
            let separation_length := Z.abs (fst m - fst m2) in
            if coupled radius separation_length
            then set_row acc (snd m)
                   (vadd (get_row acc (snd m))
                      (vscale
                         (nth (snd m2) cross_amp 0 /
                          powerRZ (IZR separation_length) beta)
                         (get_row tsout (snd m2))))
            else acc)
         members acc)
    members tsout.

(** ** Derivative operator *)

Definition Rsum (l : list R) : R := fold_right Rplus 0 l.

(** [m[i, j]] with the zero fill of [convolve2d] outside of the map. *)
Definition at2 (m : list (list R)) (i j : Z) : R :=
  if ((i <? 0) || (j <? 0))%Z then 0
  else nth (Z.to_nat j) (nth (Z.to_nat i) m []) 0.

(** [scipy.signal.convolve2d(m, kernel, mode='same')]: the centre part of
    the full convolution, of the shape of [m]. *)
Definition convolve2d_same (m kernel : list (list R)) : list (list R) :=
  let kr := fst (shape2 kernel) in
  let kc := snd (shape2 kernel) in
  map (fun i =>
    map (fun j =>
      Rsum (map (fun a =>
        Rsum (map (fun b =>
          nth b (nth a kernel []) 0 *
          at2 m (Z.of_nat i + Z.of_nat ((kr - 1) / 2) - Z.of_nat a)
                (Z.of_nat j + Z.of_nat ((kc - 1) / 2) - Z.of_nat b))
          (seq 0 kc)))
        (seq 0 kr)))
      (seq 0 (snd (shape2 m))))
    (seq 0 (fst (shape2 m))).

Definition neg2 (v : list (list R)) : list (list R) := map (map Ropp) v.

Definition xderiv (m : list (list R)) (pix_size : R) : list (list R) :=
  let kernel := [[1 / (2 * pix_size); 0 / (2 * pix_size);
                  -1 / (2 * pix_size)]] in
  let v := convolve2d_same m kernel in
  neg2 v.

Definition yderiv (m : list (list R)) (pix_size : R) : list (list R) :=
  let kernel := [[1 / (2 * pix_size)]; [0 / (2 * pix_size)];
                 [-1 / (2 * pix_size)]] in
  let v := convolve2d_same m kernel in
  neg2 v.

Definition derivs (m : list (list R)) (pix_size : R)
  : list (list (list R)) :=
  let m00 := m in
  let m10 := xderiv m pix_size in
  let m01 := yderiv m pix_size in
  let m11 := yderiv m10 pix_size in
  let m20 := xderiv m10 pix_size in
  let m02 := yderiv m01 pix_size in
  [m00; m10; m01; m11; m20; m02].

(** ** Kernel fitter *)

(** [a.reshape(a.shape[0] * a.shape[1])]. *)
Definition flatten (a : list (list R)) : list R := List.concat a.

(** [ds.reshape((6, n)).T]: row [p] holds the six derivatives at pixel
    [p]. *)
Definition design (ds : list (list (list R))) (n : nat) : list (list R) :=
  let channels := map flatten ds in
  map (fun p => map (fun channel => nth p channel 0) channels) (seq 0 n).

Definition dot (u v : list R) : R := Rsum (vmul u v).

(** The squared 2-norm of [A x - b]. *)
Definition residual (A : list (list R)) (b x : list R) : R :=
  Rsum (map2 (fun row bi => (dot row x - bi) * (dot row x - bi)) A b).

Definition norm2 (x : list R) : R := dot x x.

(** The contract of the first value [numpy.linalg.lstsq(A, b)] returns
    for an [A] with [ncols] columns: [x] minimises the residual, and has
    the smallest 2-norm among the minimisers. *)
Definition lstsq_solution (ncols : nat) (A : list (list R)) (b x : list R)
  : Prop :=
  length x = ncols /\
  (forall y, length y = ncols -> residual A b x <= residual A b y) /\
  (forall y, length y = ncols -> residual A b y <= residual A b x ->
             norm2 x <= norm2 y).

(** The design matrix and the target of [split_deriv]. *)
Definition split_deriv_A (sumbeam : list (list R)) (pix_size : R)
  : list (list R) :=
  let ds := derivs sumbeam pix_size in
  design ds (fst (shape2 sumbeam) * snd (shape2 sumbeam)).

Definition split_deriv_b (diffbeam : list (list R)) : list R :=
  flatten diffbeam.

(** [split_deriv(sumbeam, diffbeam, pix_size)] returns [x]. *)
Definition split_deriv (sumbeam diffbeam : list (list R)) (pix_size : R)
  (x : list R) : Prop :=
  let A := split_deriv_A sumbeam pix_size in
  let b := split_deriv_b diffbeam in
  length A = length b /\ lstsq_solution 6 A b x.

(** ** Kernels *)

(** The six coefficients, in the order
    [(d00, d10, d01, d11, d20, d02)]. *)
Record kernel : Type := Kernel {
  d00 : R; d10 : R; d01 : R; d11 : R; d20 : R; d02 : R
}.

(** [K[coeff]]. *)
Definition kget (K : kernel) (coeff : nat) : R :=
  match coeff with
  | 0%nat => d00 K
  | 1%nat => d10 K
  | 2%nat => d01 K
  | 3%nat => d11 K
  | 4%nat => d20 K
  | _ => d02 K
  end.

(** Elementwise sum of two kernels. *)
Definition kadd (K K' : kernel) : kernel :=
  Kernel (d00 K + d00 K') (d10 K + d10 K') (d01 K + d01 K')
         (d11 K + d11 K') (d20 K + d20 K') (d02 K + d02 K').

(** [c in spin] for a one-character [c]. *)
Fixpoint char_in (c : ascii) (spin : string) : bool :=
  match spin with
  | EmptyString => false
  | String c' rest => Ascii.eqb c c' || char_in c rest
  end.

Definition fixspin (K : kernel) (spin : string) : kernel :=
  let x := (d20 K + d02 K) * 0.5 in
  let y := (d20 K - d02 K) * 0.5 in
  let es := Kernel 0.0 0.0 0.0 0.0 0.0 0.0 in
  let es := if char_in "0" spin
            then kadd es (Kernel (d00 K) 0.0 0.0 0.0 x x) else es in
  let es := if char_in "1" spin
            then kadd es (Kernel 0.0 (d10 K) (d01 K) 0.0 0.0 0.0) else es in
  let es := if char_in "2" spin
            then kadd es (Kernel 0.0 0.0 0.0 (d11 K) y (- y)) else es in
  es.

(** [rotate_deriv(K, theta)] for a scalar [theta]. *)
Definition rotate_deriv (K : kernel) (theta : R) : kernel :=
  let c := cos theta in
  let s := sin theta in
  let e00 := 1 * d00 K in
  let e10 := c * d10 K - s * d01 K in
  let e01 := s * d10 K + c * d01 K in
  let e20 := c * c * d20 K - 2.0 * c * s * d11 K + s * s * d02 K in
  let e02 := s * s * d20 K + 2.0 * c * s * d11 K + c * c * d02 K in
  let e11 := (c * c - s * s) * d11 K + c * s * (d20 K - d02 K) in
  Kernel e00 e10 e01 e11 e20 e02.

(** [rotate_deriv(K, theta)] for an array [theta]: numpy broadcasts the
    same formulas over the angles, giving six rows of [len(theta)]
    entries. *)
Definition rotate_deriv_array (K : kernel) (theta : list R)
  : list (list R) :=
  map (fun coeff => map (fun t => kget (rotate_deriv K t) coeff) theta)
      (seq 0 6).

(** ** Leakage projector *)

(** [a[mask]] for a boolean [mask]. *)
Fixpoint select {A : Type} (mask : list bool) (a : list A) : list A :=
  match mask, a with
  | true :: mask', x :: a' => x :: select mask' a'
  | false :: mask', _ :: a' => select mask' a'
  | _, _ => []
  end.

(** [a[mask] += vals]. *)
Fixpoint masked_iadd (a : list R) (mask : list bool) (vals : list R)
  : list R :=
  match a, mask with
  | x :: a', true :: mask' =>
      match vals with
      | v :: vals' => (x + v) :: masked_iadd a' mask' vals'
      | [] => a
      end
  | x :: a', false :: mask' => x :: masked_iadd a' mask' vals
  | _, _ => a
  end.

(** [row[p]] for a signed index: numpy counts a negative [p] from the
    end. *)
Definition take1 (row : list R) (p : Z) : result R :=
  let n := Z.of_nat (length row) in
  if ((0 <=? p) && (p <? n))%Z then Ok (nth (Z.to_nat p) row 0)
  else if ((- n <=? p) && (p <? 0))%Z
       then Ok (nth (Z.to_nat (n + p)) row 0)
       else Raise IndexError.

(** [row[io]] for an integer array [io]. *)
Fixpoint take (row : list R) (io : list Z) : result (list R) :=
  match io with
  | [] => Ok []
  | p :: io' =>
      v <- take1 row p ;;
      vs <- take row io' ;;
      Ok (v :: vs)
  end.

(** [for coeff in range(len(k)): out[ipix, okpointing] += ...] over the
    remaining [coeffs], on the row [out[ipix]]. *)
Fixpoint coeff_loop (intensity_derivatives : list (list R)) (io : list Z)
  (k : list (list R)) (okpointing : list bool) (coeffs : list nat)
  (row : list R) : list R * option exn :=
  match coeffs with
  | [] => (row, None)
  | coeff :: rest =>
      match take (nth coeff intensity_derivatives []) io with
      | Raise e => (row, Some e)
      | Ok vals =>
          coeff_loop intensity_derivatives io k okpointing rest
            (masked_iadd row okpointing (vmul vals (nth coeff k [])))
      end
  end.

Definition zero_kernel : kernel := Kernel 0 0 0 0 0 0.

(** The body of [for ipix in range(npix)] on the row [out[ipix]]. *)
Definition pix_body (intensity_derivatives : list (list R))
  (Kpix : kernel) (i1d : list Z) (orientation : list R) (row : list R)
  : list R * option exn :=
  let okpointing := map (fun p => negb (p =? -1)%Z) i1d in
  let io := select okpointing i1d in
  let k := rotate_deriv_array Kpix
             (map Ropp (select okpointing orientation)) in
  coeff_loop intensity_derivatives io k okpointing (seq 0 (length k)) row.

(** [for ipix in range(npix): ...] over the remaining [ipixs]. *)
Fixpoint pix_loop (intensity_derivatives : list (list R))
  (point_matrix : list (list Z)) (beam_orientation : tod)
  (diffbeam_kernels : list kernel) (ipixs : list nat) (out : tod)
  : tod * option exn :=
  match ipixs with
  | [] => (out, None)
  | ipix :: rest =>
      match pix_body intensity_derivatives
              (nth ipix diffbeam_kernels zero_kernel)
              (nth ipix point_matrix [])
              (get_row beam_orientation ipix)
              (get_row out ipix) with
      | (row, Some e) => (set_row out ipix row, Some e)
      | (row, None) =>
          pix_loop intensity_derivatives point_matrix beam_orientation
            diffbeam_kernels rest (set_row out ipix row)
      end
  end.

(** [diffbeam_map2tod]: the final contents of [out] and the exception
    raised, if any. [diffbeam_kernels] has shape [(len, 6)]. *)
Definition diffbeam_map2tod (out : tod)
  (intensity_derivatives : list (list R)) (point_matrix : list (list Z))
  (beam_orientation : tod) (diffbeam_kernels : list kernel)
  : tod * option exn :=
  let npix := fst (shape2 out) in
  let nt := snd (shape2 out) in
  if negb (shape_eqb (shape2 point_matrix) (shape2 out))
  then (out, Some AssertionError)
  else if negb (length diffbeam_kernels =? npix)%nat
  then (out, Some AssertionError)
  else if negb (length intensity_derivatives =? 6)%nat
  then (out, Some AssertionError)
  else if negb (shape_eqb (shape2 beam_orientation) (npix, nt))
  then (out, Some AssertionError)
  else pix_loop intensity_derivatives point_matrix beam_orientation
         diffbeam_kernels (seq 0 npix) out.

(** ** Injection of the leakage into the pairs *)

(** Row [i] belongs to the slice [start::2]. *)
Definition in_slice (start i : nat) : bool :=
  (start <=? i)%nat && Nat.even (i - start).

(** [w[start::2] op= leak], with numpy's broadcast of a one-row [leak]
    and its refusal of any other mismatch. *)
Definition slice2_iop (op : R -> R -> R) (start : nat) (w leak : tod)
  : result tod :=
  let count := ((length w + 1 - start) / 2)%nat in
  if (count =? length leak)%nat
  then Ok (imap (fun i row =>
                   if in_slice start i
                   then map2 op row (get_row leak ((i - start) / 2))
                   else row) 0 w)
  else if (length leak =? 1)%nat
  then Ok (imap (fun i row =>
                   if in_slice start i
                   then map2 op row (get_row leak 0)
                   else row) 0 w)
  else Raise ValueError.

(** [K = diffbeam_kernels + 0.; K[:, 0] = 0.0; K[:, 1] *= -1;]
    [K[:, 3] *= -1] on one kernel. *)
Definition detector_frame (K : kernel) : kernel :=
  Kernel 0.0 ((d10 K + 0) * -1) (d01 K + 0) ((d11 K + 0) * -1)
         (d20 K + 0) (d02 K + 0).

(** [waferts_add_diffbeam]: the final contents of [waferts] and the
    exception raised, if any. [pairlist] is not read by the routine. *)
Definition waferts_add_diffbeam (waferts : tod)
  (point_matrix : list (list Z)) (beam_orientation : tod)
  (intensity_derivatives : list (list R)) (diffbeam_kernels : list kernel)
  (pairlist : list (nat * nat)) (spins : string) : tod * option exn :=
  let K := map detector_frame diffbeam_kernels in
  let K := map (fun Ki => fixspin Ki spins) K in
  let diffbeamleak :=
    repeat (repeat 0 (snd (shape2 waferts))) (fst (shape2 waferts) / 2) in
  match diffbeam_map2tod diffbeamleak intensity_derivatives point_matrix
          beam_orientation K with
  | (_, Some e) => (waferts, Some e)
  | (diffbeamleak, None) =>
      match slice2_iop Rplus 0 waferts diffbeamleak with
      | Raise e => (waferts, Some e)
      | Ok waferts1 =>
          match slice2_iop Rminus 1 waferts1 diffbeamleak with
          | Raise e => (waferts1, Some e)
          | Ok waferts2 => (waferts2, None)
          end
      end
  end.

(** ** The crosstalk contract, as the specification words it *)

(** Every detector receives its own signal plus the weighted signals of
    the detectors it couples with, all of them read from the input [x]. *)
Definition snapshot_coupling (weight : nat -> nat -> option R) (x : tod)
  : tod :=
  imap (fun i xi =>
          fold_left (fun acc j =>
                       match weight i j with
                       | Some w => vadd acc (vscale w (get_row x j))
                       | None => acc
                       end)
                    (seq 0 (length x)) xi)
       0 x.

(** Intra-SQUID: [i] and [j] of the same SQUID couple iff
    [0 < |channel(i) - channel(j)| <= radius], with weight
    [cross_amp[j] / |channel(i) - channel(j)|^beta]. *)
Definition snapshot_inside_weight (squid_ids : list string)
  (bolo_ids : list Z) (cross_amp : list R) (radius beta : Z) (i j : nat)
  : option R :=
  match nth_error squid_ids i, nth_error squid_ids j,
        nth_error bolo_ids i, nth_error bolo_ids j with
  | Some si, Some sj, Some ci, Some cj =>
      if String.eqb si sj && coupled radius (Z.abs (ci - cj))
      then Some (nth j cross_amp 0 / powerRZ (IZR (Z.abs (ci - cj))) beta)
      else None
  | _, _, _, _ => None
  end.

(** Inter-SQUID: [i] and [j] of different SQUIDs couple with weight
    [cross_amp[j] / squid_attenuation]. *)
Definition snapshot_s2s_weight (squid_ids : list string)
  (cross_amp : list R) (squid_attenuation : R) (i j : nat) : option R :=
  match nth_error squid_ids i, nth_error squid_ids j with
  | Some si, Some sj =>
      if String.eqb si sj then None
      else Some (nth j cross_amp 0 / squid_attenuation)
  | _, _ => None
  end.

(** ** The leakage of one sample, as the specification words it *)

(** The products [rotated_kernel[coeff] * stack[coeff][pixel]] for the
    kernel rotated by the negative of the orientation [theta]. *)
Fixpoint leak_terms (intensity_derivatives : list (list R)) (K : kernel)
  (theta : R) (pixel : Z) (coeffs : list nat) : result (list R) :=
  match coeffs with
  | [] => Ok []
  | coeff :: rest =>
      v <- take1 (nth coeff intensity_derivatives []) pixel ;;
      vs <- leak_terms intensity_derivatives K theta pixel rest ;;
      Ok (v * kget (rotate_deriv K (- theta)) coeff :: vs)
  end.

(** Their sum over the six coefficients. *)
Definition leakage (intensity_derivatives : list (list R)) (K : kernel)
  (theta : R) (pixel : Z) : result R :=
  terms <- leak_terms intensity_derivatives K theta pixel (seq 0 6) ;;
  Ok (Rsum terms).

(** A pixel the projector can handle: the sentinel, or an index of each
    of the six maps. *)
Definition pixel_ok (intensity_derivatives : list (list R)) (pixel : Z)
  : Prop :=
  pixel = (-1)%Z \/
  forall coeff, (coeff < 6)%nat ->
    exists v, take1 (nth coeff intensity_derivatives []) pixel = Ok v.

(** ** Invariants of the dictionary of SQUIDs *)

(** Every member [(ch, b)] filed under [sq] is a detector below [n] whose
    SQUID is [sq] and whose channel is [ch]. *)
Definition members_ok (squid_ids : list string) (bolo_ids : list Z)
  (n : nat) (combs : combs_t) : Prop :=
  forall sq l ch b, In (sq, l) combs -> In (ch, b) l ->
    (b < n)%nat /\ nth_error squid_ids b = Some sq /\
    nth_error bolo_ids b = Some ch.

(** Every key of the dictionary is the SQUID of some detector below [n]. *)
Definition keys_ok (squid_ids : list string) (n : nat) (combs : combs_t)
  : Prop :=
  forall sq l, In (sq, l) combs ->
    exists b, (b < n)%nat /\ nth_error squid_ids b = Some sq.

(** ** float64 arithmetic *)

(** A signed zero. *)
Definition f64_zero (x : float) : Prop :=
  exists s, Prim2SF x = S754_zero s.

(** The same float64 value, the sign of a zero apart. *)
Definition f64_same (x y : float) : Prop :=
  Prim2SF x = Prim2SF y \/ (f64_zero x /\ f64_zero y).

(** ** The kernel and pair routines on float64 *)

(** The routines of the differential-beam engine again, on IEEE 754
    binary64 numbers with numpy's order of evaluation. [np.cos] and
    [np.sin] are parameters: their values come from the platform's
    mathematical library. *)
Module F64.

Local Open Scope float_scope.

Definition tod : Type := list (list float).

Definition vmul (u v : list float) : list float := map2 PrimFloat.mul u v.

Definition get_row (a : tod) (i : nat) : list float := nth i a [].

Fixpoint set_row (a : tod) (i : nat) (r : list float) : tod :=
  match a, i with
  | [], _ => []
  | _ :: t, O => r :: t
  | x :: t, S j => x :: set_row t j r
  end.

(** The six coefficients, in the order
    [(d00, d10, d01, d11, d20, d02)]. *)
Record kernel : Type := Kernel {
  d00 : float; d10 : float; d01 : float; d11 : float; d20 : float;
  d02 : float
}.

(** [K[coeff]]. *)
Definition kget (K : kernel) (coeff : nat) : float :=
  match coeff with
  | 0%nat => d00 K
  | 1%nat => d10 K
  | 2%nat => d01 K
  | 3%nat => d11 K
  | 4%nat => d20 K
  | _ => d02 K
  end.

(** Elementwise sum of two kernels. *)
Definition kadd (K K' : kernel) : kernel :=
  Kernel (d00 K + d00 K') (d10 K + d10 K') (d01 K + d01 K')
         (d11 K + d11 K') (d20 K + d20 K') (d02 K + d02 K').

(** [(K == K').all()]. *)
Definition keqb (K K' : kernel) : bool :=
  (d00 K =? d00 K') && (d10 K =? d10 K') && (d01 K =? d01 K') &&
  (d11 K =? d11 K') && (d20 K =? d20 K') && (d02 K =? d02 K').

(** The two kernels hold the same values, the sign of a zero apart. *)
Definition ksame (K K' : kernel) : Prop :=
  f64_same (d00 K) (d00 K') /\ f64_same (d10 K) (d10 K') /\
  f64_same (d01 K) (d01 K') /\ f64_same (d11 K) (d11 K') /\
  f64_same (d20 K) (d20 K') /\ f64_same (d02 K) (d02 K').

(** No coefficient is infinite or NaN. *)
Definition kfinite (K : kernel) : bool :=
  is_finite (d00 K) && is_finite (d10 K) && is_finite (d01 K) &&
  is_finite (d11 K) && is_finite (d20 K) && is_finite (d02 K).

Definition fixspin (K : kernel) (spin : string) : kernel :=
  let x := (d20 K + d02 K) * 0.5 in
  let y := (d20 K - d02 K) * 0.5 in
  let es := Kernel 0.0 0.0 0.0 0.0 0.0 0.0 in
  let es := if char_in "0" spin
            then kadd es (Kernel (d00 K) 0.0 0.0 0.0 x x) else es in
  let es := if char_in "1" spin
            then kadd es (Kernel 0.0 (d10 K) (d01 K) 0.0 0.0 0.0) else es in
  let es := if char_in "2" spin
            then kadd es (Kernel 0.0 0.0 0.0 (d11 K) y (- y)) else es in
  es.

(** [K = diffbeam_kernels + 0.; K[:, 0] = 0.0; K[:, 1] *= -1;]
    [K[:, 3] *= -1] on one kernel. *)
Definition detector_frame (K : kernel) : kernel :=
  Kernel 0.0 ((d10 K + 0) * -1) (d01 K + 0) ((d11 K + 0) * -1)
         (d20 K + 0) (d02 K + 0).

(** [a[mask] += vals]. *)
Fixpoint masked_iadd (a : list float) (mask : list bool)
  (vals : list float) : list float :=
  match a, mask with
  | x :: a', true :: mask' =>
      match vals with
      | v :: vals' => (x + v) :: masked_iadd a' mask' vals'
      | [] => a
      end
  | x :: a', false :: mask' => x :: masked_iadd a' mask' vals
  | _, _ => a
  end.

(** [row[p]] for a signed index: numpy counts a negative [p] from the
    end. *)
Definition take1 (row : list float) (p : Z) : result float :=
  let n := Z.of_nat (length row) in
  if ((0 <=? p) && (p <? n))%Z then Ok (nth (Z.to_nat p) row 0)
  else if ((- n <=? p) && (p <? 0))%Z
       then Ok (nth (Z.to_nat (n + p)) row 0)
       else Raise IndexError.

(** [row[io]] for an integer array [io]. *)
Fixpoint take (row : list float) (io : list Z) : result (list float) :=
  match io with
  | [] => Ok []
  | p :: io' =>
      v <- take1 row p ;;
      vs <- take row io' ;;
      Ok (v :: vs)
  end.

(** [for coeff in range(len(k)): out[ipix, okpointing] += ...] over the
    remaining [coeffs], on the row [out[ipix]]. *)
Fixpoint coeff_loop (intensity_derivatives : list (list float))
  (io : list Z) (k : list (list float)) (okpointing : list bool)
  (coeffs : list nat) (row : list float) : list float * option exn :=
  match coeffs with
  | [] => (row, None)
  | coeff :: rest =>
      match take (nth coeff intensity_derivatives []) io with
      | Raise e => (row, Some e)
      | Ok vals =>
          coeff_loop intensity_derivatives io k okpointing rest
            (masked_iadd row okpointing (vmul vals (nth coeff k [])))
      end
  end.

Definition zero_kernel : kernel := Kernel 0 0 0 0 0 0.

(** [w[start::2] op= leak], with numpy's broadcast of a one-row [leak]
    and its refusal of any other mismatch. *)
Definition slice2_iop (op : float -> float -> float) (start : nat)
  (w leak : tod) : result tod :=
  let count := ((length w + 1 - start) / 2)%nat in
  if (count =? length leak)%nat
  then Ok (imap (fun i row =>
                   if in_slice start i
                   then map2 op row (get_row leak ((i - start) / 2))
                   else row) 0%nat w)
  else if (length leak =? 1)%nat
  then Ok (imap (fun i row =>
                   if in_slice start i
                   then map2 op row (get_row leak 0)
                   else row) 0%nat w)
  else Raise ValueError.

Section Libm.

(** [np.cos] and [np.sin] on a float64. *)
Variables np_cos np_sin : float -> float.

(** [rotate_deriv(K, theta)] for a scalar [theta]. *)
Definition rotate_deriv (K : kernel) (theta : float) : kernel :=
  let c := np_cos theta in
  let s := np_sin theta in
  let e00 := 1 * d00 K in
  let e10 := c * d10 K - s * d01 K in
  let e01 := s * d10 K + c * d01 K in
  let e20 := c * c * d20 K - 2.0 * c * s * d11 K + s * s * d02 K in
  let e02 := s * s * d20 K + 2.0 * c * s * d11 K + c * c * d02 K in
  let e11 := (c * c - s * s) * d11 K + c * s * (d20 K - d02 K) in
  Kernel e00 e10 e01 e11 e20 e02.

(** [rotate_deriv(K, theta)] for an array [theta]: numpy broadcasts the
    same formulas over the angles, giving six rows of [len(theta)]
    entries. *)
Definition rotate_deriv_array (K : kernel) (theta : list float)
  : list (list float) :=
  map (fun coeff => map (fun t => kget (rotate_deriv K t) coeff) theta)
      (seq 0 6).

(** The body of [for ipix in range(npix)] on the row [out[ipix]]. *)
Definition pix_body (intensity_derivatives : list (list float))
  (Kpix : kernel) (i1d : list Z) (orientation : list float)
  (row : list float) : list float * option exn :=
  let okpointing := map (fun p => negb (p =? -1)%Z) i1d in
  let io := select okpointing i1d in
  let k := rotate_deriv_array Kpix
             (map PrimFloat.opp (select okpointing orientation)) in
  coeff_loop intensity_derivatives io k okpointing (seq 0 (length k)) row.

(** [for ipix in range(npix): ...] over the remaining [ipixs]. *)
Fixpoint pix_loop (intensity_derivatives : list (list float))
  (point_matrix : list (list Z)) (beam_orientation : tod)
  (diffbeam_kernels : list kernel) (ipixs : list nat) (out : tod)
  : tod * option exn :=
  match ipixs with
  | [] => (out, None)
  | ipix :: rest =>
      match pix_body intensity_derivatives
              (nth ipix diffbeam_kernels zero_kernel)
              (nth ipix point_matrix [])
              (get_row beam_orientation ipix)
              (get_row out ipix) with
      | (row, Some e) => (set_row out ipix row, Some e)
      | (row, None) =>
          pix_loop intensity_derivatives point_matrix beam_orientation
            diffbeam_kernels rest (set_row out ipix row)
      end
  end.

(** [diffbeam_map2tod]: the final contents of [out] and the exception
    raised, if any. *)
Definition diffbeam_map2tod (out : tod)
  (intensity_derivatives : list (list float))
  (point_matrix : list (list Z)) (beam_orientation : tod)
  (diffbeam_kernels : list kernel) : tod * option exn :=
  let npix := fst (shape2 out) in
  let nt := snd (shape2 out) in
  if negb (shape_eqb (shape2 point_matrix) (shape2 out))
  then (out, Some AssertionError)
  else if negb (length diffbeam_kernels =? npix)%nat
  then (out, Some AssertionError)
  else if negb (length intensity_derivatives =? 6)%nat
  then (out, Some AssertionError)
  else if negb (shape_eqb (shape2 beam_orientation) (npix, nt))
  then (out, Some AssertionError)
  else pix_loop intensity_derivatives point_matrix beam_orientation
         diffbeam_kernels (seq 0 npix) out.

(** [waferts_add_diffbeam]: the final contents of [waferts] and the
    exception raised, if any. [pairlist] is not read by the routine. *)
Definition waferts_add_diffbeam (waferts : tod)
  (point_matrix : list (list Z)) (beam_orientation : tod)
  (intensity_derivatives : list (list float))
  (diffbeam_kernels : list kernel) (pairlist : list (nat * nat))
  (spins : string) : tod * option exn :=
  let K := map detector_frame diffbeam_kernels in
  let K := map (fun Ki => fixspin Ki spins) K in
  let diffbeamleak :=
    repeat (repeat 0 (snd (shape2 waferts))) (fst (shape2 waferts) / 2) in
  match diffbeam_map2tod diffbeamleak intensity_derivatives point_matrix
          beam_orientation K with
  | (_, Some e) => (waferts, Some e)
  | (diffbeamleak, None) =>
      match slice2_iop PrimFloat.add 0 waferts diffbeamleak with
      | Raise e => (waferts, Some e)
      | Ok waferts1 =>
          match slice2_iop PrimFloat.sub 1 waferts1 diffbeamleak with
          | Raise e => (waferts1, Some e)
          | Ok waferts2 => (waferts2, None)
          end
      end
  end.

End Libm.

End F64.

(** * Properties *)

(** ** Arrays *)

Lemma length_set_row (a : tod) (i : nat) (r : list R) :
  length (set_row a i r) = length a.
Proof.
  revert i; induction a as [|x t IH]; intros [|j]; simpl; auto.
Qed.

Lemma get_set_row_other (a : tod) (i j : nat) (r : list R) :
  i <> j -> get_row (set_row a i r) j = get_row a j.
Proof.
  unfold get_row. revert i j.
  induction a as [|x t IH]; intros [|i] [|j] Hij; simpl; auto;
    try congruence.
Qed.

Lemma get_set_row_same (a : tod) (i : nat) (r : list R) :
  (i < length a)%nat -> get_row (set_row a i r) i = r.
Proof.
  unfold get_row. revert i.
  induction a as [|x t IH]; intros [|i] Hi; simpl in *; try lia; auto.
  apply IH; lia.
Qed.

Lemma copy_plus_zero_id (bolo_data : tod) :
  copy_plus_zero bolo_data = bolo_data.
Proof.
  unfold copy_plus_zero.
  rewrite <- (map_id bolo_data) at 2.
  apply map_ext; intros row.
  rewrite <- (map_id row) at 2.
  apply map_ext; intros x; lra.
Qed.

Lemma getitem_Ok {A : Type} (l : list A) (i : nat) (a : A) :
  getitem l i = Ok a <-> nth_error l i = Some a.
Proof.
  unfold getitem; destruct (nth_error l i); split; congruence.
Qed.

Lemma getitem_short {A : Type} (l : list A) (i : nat) :
  (length l <= i)%nat -> getitem l i = Raise IndexError.
Proof.
  intros H; unfold getitem.
  apply nth_error_None in H; now rewrite H.
Qed.

Lemma getitem_in_range {A : Type} (l : list A) (i : nat) :
  (i < length l)%nat -> exists a, getitem l i = Ok a.
Proof.
  intros H; unfold getitem.
  destruct (nth_error l i) eqn:E; eauto.
  apply nth_error_None in E; lia.
Qed.

(** ** The dictionary of SQUIDs *)

Lemma combs_append_ok squid_ids bolo_ids n combs sq ch b :
  members_ok squid_ids bolo_ids n combs ->
  (b < n)%nat -> nth_error squid_ids b = Some sq ->
  nth_error bolo_ids b = Some ch ->
  members_ok squid_ids bolo_ids n (combs_append combs sq (ch, b)).
Proof.
  intros Hok Hb Hsq Hch.
  induction combs as [|[k l] rest IH]; simpl.
  - intros sq' l' ch' b' [E|[]] Hin. inversion E; subst.
    destruct Hin as [E'|[]]. inversion E'; subst. auto.
  - assert (Hrest : members_ok squid_ids bolo_ids n rest).
    { intros sq' l' ch' b' H1 H2. apply (Hok sq' l'); simpl; auto. }
    destruct (String.eqb k sq) eqn:Ek.
    + apply String.eqb_eq in Ek; subst k.
      intros sq' l' ch' b' [E|Hin] Hm.
      * inversion E; subst. apply in_app_or in Hm.
        destruct Hm as [Hm|[E'|[]]].
        -- apply (Hok sq' l); simpl; auto.
        -- inversion E'; subst; auto.
      * apply (Hok sq' l'); simpl; auto.
    + intros sq' l' ch' b' [E|Hin] Hm.
      * inversion E; subst. apply (Hok sq' l'); simpl; auto.
      * apply (IH Hrest sq' l'); auto.
Qed.

Lemma build_combs_ok squid_ids bolo_ids n bolos :
  (forall b, In b bolos -> (b < n)%nat) ->
  forall combs combs',
    members_ok squid_ids bolo_ids n combs ->
    build_combs squid_ids bolo_ids bolos combs = Ok combs' ->
    members_ok squid_ids bolo_ids n combs'.
Proof.
  induction bolos as [|bolo rest IH]; intros Hlt combs combs' Hok Hb;
    simpl in Hb.
  - inversion Hb; subst; auto.
  - unfold bind in Hb.
    destruct (getitem squid_ids bolo) as [sq|] eqn:Esq; try discriminate.
    destruct (getitem bolo_ids bolo) as [ch|] eqn:Ech; try discriminate.
    apply getitem_Ok in Esq; apply getitem_Ok in Ech.
    eapply IH; [ | | exact Hb].
    + intros b Hin; apply Hlt; simpl; auto.
    + apply combs_append_ok; auto. apply Hlt; simpl; auto.
Qed.

Lemma members_ok_nil squid_ids bolo_ids n :
  members_ok squid_ids bolo_ids n [].
Proof. intros sq l ch b []. Qed.

Lemma combs_append_keys squid_ids n combs sq e b :
  keys_ok squid_ids n combs ->
  (b < n)%nat -> nth_error squid_ids b = Some sq ->
  keys_ok squid_ids n (combs_append combs sq e).
Proof.
  intros Hok Hb Hsq.
  induction combs as [|[k l] rest IH]; simpl.
  - intros sq' l' [E|[]]; inversion E; subst; eauto.
  - assert (Hrest : keys_ok squid_ids n rest).
    { intros sq' l' H1. apply (Hok sq' l'); simpl; auto. }
    destruct (String.eqb k sq) eqn:Ek.
    + apply String.eqb_eq in Ek; subst k.
      intros sq' l' [E|Hin].
      * inversion E; subst; eauto.
      * apply (Hok sq' l'); simpl; auto.
    + intros sq' l' [E|Hin].
      * inversion E; subst. apply (Hok sq' l'); simpl; auto.
      * apply (IH Hrest sq' l'); auto.
Qed.

Lemma build_combs_keys squid_ids bolo_ids n bolos :
  (forall b, In b bolos -> (b < n)%nat) ->
  forall combs combs',
    keys_ok squid_ids n combs ->
    build_combs squid_ids bolo_ids bolos combs = Ok combs' ->
    keys_ok squid_ids n combs'.
Proof.
  induction bolos as [|bolo rest IH]; intros Hlt combs combs' Hok Hb;
    simpl in Hb.
  - inversion Hb; subst; auto.
  - unfold bind in Hb.
    destruct (getitem squid_ids bolo) as [sq|] eqn:Esq; try discriminate.
    destruct (getitem bolo_ids bolo) as [ch|] eqn:Ech; try discriminate.
    apply getitem_Ok in Esq.
    eapply IH; [ | | exact Hb].
    + intros b Hin; apply Hlt; simpl; auto.
    + eapply combs_append_keys; eauto. apply Hlt; simpl; auto.
Qed.

(** The dictionary is built whenever both id arrays cover the
    detectors. *)
Lemma build_combs_total squid_ids bolo_ids bolos :
  (forall b, In b bolos ->
     (b < length squid_ids)%nat /\ (b < length bolo_ids)%nat) ->
  forall combs, exists combs',
    build_combs squid_ids bolo_ids bolos combs = Ok combs'.
Proof.
  induction bolos as [|bolo rest IH]; intros Hlt combs; simpl; eauto.
  destruct (Hlt bolo (or_introl eq_refl)) as [H1 H2].
  destruct (getitem_in_range squid_ids bolo H1) as [sq ->].
  destruct (getitem_in_range bolo_ids bolo H2) as [ch ->].
  simpl. apply IH. intros b Hin; apply Hlt; simpl; auto.
Qed.

(** It is not built when one of them is too short for a detector. *)
Lemma build_combs_short squid_ids bolo_ids bolos :
  (exists b, In b bolos /\
     ((length squid_ids <= b)%nat \/ (length bolo_ids <= b)%nat)) ->
  forall combs,
    build_combs squid_ids bolo_ids bolos combs = Raise IndexError.
Proof.
  induction bolos as [|bolo rest IH]; intros [b [Hin Hb]] combs.
  - destruct Hin.
  - simpl. unfold bind.
    destruct (getitem squid_ids bolo) as [sq|e] eqn:Esq.
    + destruct (getitem bolo_ids bolo) as [ch|e] eqn:Ech.
      * apply IH. exists b; split; auto.
        destruct Hin as [->|Hin]; auto.
        exfalso. destruct Hb as [Hb|Hb].
        -- rewrite (getitem_short _ _ Hb) in Esq; discriminate.
        -- rewrite (getitem_short _ _ Hb) in Ech; discriminate.
      * unfold getitem in Ech.
        destruct (nth_error bolo_ids bolo); congruence.
    + unfold getitem in Esq.
      destruct (nth_error squid_ids bolo); congruence.
Qed.

(** ** Crosstalk network *)

Section CrosstalkProperties.

Variable gauss : Z -> nat -> R.
Variable inject_crosstalk_inside_squid_f :
  tod -> list Z -> list nat -> Z -> list R -> Z -> nat -> nat -> nat -> tod.

Lemma length_normal seed mu sigma n :
  length (normal gauss seed mu sigma n) = n.
Proof. unfold normal. now rewrite length_map, length_seq. Qed.

Lemma leak_into_other tsout i w i2 j :
  i <> j -> get_row (leak_into tsout i w i2) j = get_row tsout j.
Proof. intros H; unfold leak_into; now apply get_set_row_other. Qed.

Lemma length_leak_into tsout i w i2 :
  length (leak_into tsout i w i2) = length tsout.
Proof. unfold leak_into; apply length_set_row. Qed.

(** *** Frame properties of the intra-SQUID loops *)

(** The inner loop for [(ch, i)] writes row [i] only. *)
Lemma inside_inner_other radius beta cross_amp ch i members tsout j :
  i <> j ->
  get_row (inside_inner radius beta cross_amp ch i members tsout) j =
  get_row tsout j.
Proof.
  intros Hij. revert tsout.
  induction members as [|[ch2 i2] rest IH]; intros tsout; simpl; auto.
  rewrite IH. destruct (coupled _ _); auto.
  now apply leak_into_other.
Qed.

(** It writes nothing when no member is within the radius. *)
Lemma inside_inner_uncoupled radius beta cross_amp ch i members tsout :
  (forall ch2 i2, In (ch2, i2) members ->
     coupled radius (Z.abs (ch - ch2)) = false) ->
  inside_inner radius beta cross_amp ch i members tsout = tsout.
Proof.
  revert tsout.
  induction members as [|[ch2 i2] rest IH]; intros tsout H; simpl; auto.
  rewrite (H ch2 i2) by (simpl; auto).
  apply IH. intros c k Hin; apply (H c k); simpl; auto.
Qed.

Lemma inside_outer_row radius beta cross_amp members todo tsout j :
  (forall ch ch2 i2, In (ch, j) todo -> In (ch2, i2) members ->
     coupled radius (Z.abs (ch - ch2)) = false) ->
  get_row (inside_outer radius beta cross_amp members todo tsout) j =
  get_row tsout j.
Proof.
  revert tsout.
  induction todo as [|[ch i] rest IH]; intros tsout H; simpl; auto.
  rewrite IH by (intros c c2 k H1 H2; apply (H c c2 k); simpl; auto).
  destruct (Nat.eq_dec i j) as [->|Hij].
  - rewrite inside_inner_uncoupled; auto.
    intros c2 k Hin. apply (H ch c2 k); simpl; auto.
  - now apply inside_inner_other.
Qed.

Lemma inside_python_row radius beta cross_amp combs tsout j :
  (forall sq members ch ch2 i2, In (sq, members) combs ->
     In (ch, j) members -> In (ch2, i2) members ->
     coupled radius (Z.abs (ch - ch2)) = false) ->
  get_row (inside_python radius beta cross_amp combs tsout) j =
  get_row tsout j.
Proof.
  revert tsout.
  induction combs as [|[sq members] rest IH]; intros tsout H; simpl; auto.
  rewrite IH
    by (intros s m c c2 k H0 H1 H2; apply (H s m c c2 k); simpl; auto).
  apply inside_outer_row.
  intros c c2 k H1 H2. apply (H sq members c c2 k); simpl; auto.
Qed.

Lemma coupled_radius_0 sep : coupled 0 sep = false.
Proof.
  unfold coupled.
  destruct (0 <? sep)%Z eqn:E1; simpl; auto.
  apply Z.ltb_lt in E1. apply Z.leb_gt. lia.
Qed.

Lemma inside_outer_radius_0 beta cross_amp members todo tsout :
  inside_outer 0 beta cross_amp members todo tsout = tsout.
Proof.
  revert tsout.
  induction todo as [|[ch i] rest IH]; intros tsout; simpl; auto.
  rewrite IH. apply inside_inner_uncoupled.
  intros; apply coupled_radius_0.
Qed.

Lemma inside_python_radius_0 beta cross_amp combs tsout :
  inside_python 0 beta cross_amp combs tsout = tsout.
Proof.
  revert tsout.
  induction combs as [|[sq members] rest IH]; intros tsout; simpl; auto.
  rewrite IH. apply inside_outer_radius_0.
Qed.

(** *** Frame properties of the inter-SQUID loops *)

Lemma s2s_second_same_squid att cross_amp sq1 i combs2 tsout :
  (forall sq2 l, In (sq2, l) combs2 -> sq2 = sq1) ->
  s2s_second att cross_amp sq1 i combs2 tsout = tsout.
Proof.
  revert tsout.
  induction combs2 as [|[sq2 l] rest IH]; intros tsout H; simpl; auto.
  rewrite (H sq2 l) by (simpl; auto).
  rewrite String.eqb_refl.
  apply IH. intros s m Hin; apply (H s m); simpl; auto.
Qed.

Lemma s2s_first_members_single att cross_amp combs sq1 members1 tsout :
  (forall sq2 l, In (sq2, l) combs -> sq2 = sq1) ->
  s2s_first_members att cross_amp combs sq1 members1 tsout = tsout.
Proof.
  intros H. revert tsout.
  induction members1 as [|[ch i] rest IH]; intros tsout; simpl; auto.
  rewrite IH. now apply s2s_second_same_squid.
Qed.

Lemma s2s_first_single att cross_amp combs todo tsout s :
  (forall sq l, In (sq, l) combs -> sq = s) ->
  (forall sq l, In (sq, l) todo -> sq = s) ->
  s2s_first att cross_amp combs todo tsout = tsout.
Proof.
  intros Hc. revert tsout.
  induction todo as [|[sq1 members1] rest IH]; intros tsout Ht;
    simpl; auto.
  rewrite IH by (intros q l Hin; apply (Ht q l); simpl; auto).
  apply s2s_first_members_single.
  intros sq2 l Hin.
  rewrite (Hc sq2 l Hin). symmetry. apply (Ht sq1 members1); simpl; auto.
Qed.

(** *** The dictionary of a call *)

Lemma call_combs_ok squid_ids bolo_ids (data : tod) combs :
  build_combs squid_ids bolo_ids (seq 0 (length data)) [] = Ok combs ->
  members_ok squid_ids bolo_ids (length data) combs /\
  keys_ok squid_ids (length data) combs.
Proof.
  intros H.
  assert (Hlt : forall b, In b (seq 0 (length data)) ->
                          (b < length data)%nat).
  { intros b Hin; apply in_seq in Hin; lia. }
  split.
  - eapply build_combs_ok; eauto using members_ok_nil.
  - eapply build_combs_keys; eauto. intros sq l [].
Qed.

Lemma call_combs_total squid_ids bolo_ids (data : tod) :
  (length data <= length squid_ids)%nat ->
  (length data <= length bolo_ids)%nat ->
  exists combs,
    build_combs squid_ids bolo_ids (seq 0 (length data)) [] = Ok combs.
Proof.
  intros H1 H2. apply build_combs_total.
  intros b Hin; apply in_seq in Hin; lia.
Qed.

Lemma call_combs_short squid_ids bolo_ids (data : tod) :
  (length squid_ids < length data)%nat \/
  (length bolo_ids < length data)%nat ->
  build_combs squid_ids bolo_ids (seq 0 (length data)) [] =
  Raise IndexError.
Proof.
  intros H. apply build_combs_short.
  destruct H as [H|H].
  - exists (length squid_ids); split; [apply in_seq; lia | left; lia].
  - exists (length bolo_ids); split; [apply in_seq; lia | right; lia].
Qed.

End CrosstalkProperties.

(** *** The Fortran kernel of the specification *)

Lemma combine_fst_snd {A B : Type} (l : list (A * B)) :
  combine (map fst l) (map snd l) = l.
Proof.
  induction l as [|[a b] l IH]; simpl; congruence.
Qed.

Lemma fold_left_fixed {A B : Type} (f : A -> B -> A) (l : list B) (a : A) :
  (forall acc x, In x l -> f acc x = acc) -> fold_left f l a = a.
Proof.
  revert a. induction l as [|x l IH]; intros a H; simpl; auto.
  rewrite (H a x) by (simpl; auto).
  apply IH. intros acc y Hy; apply H; simpl; auto.
Qed.

Lemma fold_left_row {B : Type} (f : tod -> B -> tod) (l : list B)
  (a : tod) (j : nat) :
  (forall acc x, In x l -> get_row (f acc x) j = get_row acc j) ->
  get_row (fold_left f l a) j = get_row a j.
Proof.
  revert a. induction l as [|x l IH]; intros a H; simpl; auto.
  rewrite IH by (intros acc y Hy; apply H; simpl; auto).
  apply H; simpl; auto.
Qed.

(** Row [j] is as it was when no member at row [j] is within the radius
    of a member. *)
Lemma kernel_spec_row tsout local_indices global_indices radius
  cross_amp beta n nbolo nt j :
  (forall ch ch2 i2,
     In (ch, j) (combine local_indices global_indices) ->
     In (ch2, i2) (combine local_indices global_indices) ->
     coupled radius (Z.abs (ch - ch2)) = false) ->
  get_row (inject_crosstalk_inside_squid_f_spec tsout local_indices
             global_indices radius cross_amp beta n nbolo nt) j =
  get_row tsout j.
Proof.
  unfold inject_crosstalk_inside_squid_f_spec. intros H.
  apply fold_left_row. intros acc [ch i] Hm.
  apply fold_left_row. intros acc' [ch2 i2] Hm2. cbn [fst snd].
  destruct (coupled radius (Z.abs (ch - ch2))) eqn:E; auto.
  destruct (Nat.eq_dec i j) as [->|Ej].
  - rewrite (H ch ch2 i2) in E by auto. discriminate.
  - now apply get_set_row_other.
Qed.

(** With [radius = 0] the kernel writes nothing. *)
Lemma kernel_spec_radius_0 tsout local_indices global_indices cross_amp
  beta n nbolo nt :
  inject_crosstalk_inside_squid_f_spec tsout local_indices global_indices
    0 cross_amp beta n nbolo nt = tsout.
Proof.
  unfold inject_crosstalk_inside_squid_f_spec.
  apply fold_left_fixed. intros acc m _.
  apply fold_left_fixed. intros acc' m2 _. cbn zeta.
  now rewrite coupled_radius_0.
Qed.

Lemma inside_fortran_spec_radius_0 beta cross_amp nbolo nt combs tsout :
  inside_fortran inject_crosstalk_inside_squid_f_spec 0 beta cross_amp
    nbolo nt combs tsout = tsout.
Proof.
  revert tsout.
  induction combs as [|[sq members] rest IH]; intros tsout; simpl; auto.
  rewrite IH. apply kernel_spec_radius_0.
Qed.

Lemma inside_fortran_spec_row radius beta cross_amp nbolo nt combs tsout
  j :
  (forall sq members ch ch2 i2, In (sq, members) combs ->
     In (ch, j) members -> In (ch2, i2) members ->
     coupled radius (Z.abs (ch - ch2)) = false) ->
  get_row (inside_fortran inject_crosstalk_inside_squid_f_spec radius
             beta cross_amp nbolo nt combs tsout) j =
  get_row tsout j.
Proof.
  revert tsout.
  induction combs as [|[sq members] rest IH]; intros tsout H; simpl; auto.
  rewrite IH
    by (intros s m c c2 k H0 H1 H2; apply (H s m c c2 k); simpl; auto).
  apply kernel_spec_row. rewrite combine_fst_snd.
  intros c c2 k H1 H2. apply (H sq members c c2 k); simpl; auto.
Qed.

(** ** Main results on the crosstalk network *)

Section CrosstalkClaims.

Variable gauss : Z -> nat -> R.
Variable inject_crosstalk_inside_squid_f :
  tod -> list Z -> list nat -> Z -> list R -> Z -> nat -> nat -> nat -> tod.

Lemma delivered_write_back b tsout : delivered (write_back b tsout) = tsout.
Proof. unfold delivered, write_back. now destruct (new_array b). Qed.

Lemma bolo_data_write_back b :
  bolo_data (write_back b (bolo_data b)) = bolo_data b.
Proof. unfold write_back. now destruct (new_array b). Qed.

(** C1. On two detectors of one SQUID at neighbouring channels, with
    unit signals and unit amplitudes ([mu = 100], [sigma = 0]), the
    intra-SQUID routine returns 2 and 3 where the contract computed on
    the input timestreams gives 2 and 2: the second detector receives
    the already modified signal of the first. The inter-SQUID routine
    does the same on two detectors of two SQUIDs. *)
Theorem crosstalk_reads_modified_timestreams (seed : Z) :
  let x := [[1]; [1]] in
  let cross_amp := cross_amp_of gauss seed 100 0 x in
  inject_crosstalk_inside_SQUID gauss inject_crosstalk_inside_squid_f
    (Buffers x None) ["A"; "A"]%string [0; 1]%Z 100 0 1 2 seed "python" =
    (Buffers [[2]; [3]] None, None) /\
  snapshot_coupling
    (snapshot_inside_weight ["A"; "A"]%string [0; 1]%Z cross_amp 1 2) x =
    [[2]; [2]] /\
  inject_crosstalk_SQUID_to_SQUID gauss
    (Buffers x None) ["A"; "B"]%string [0; 0]%Z 100 0 1 seed =
    (Buffers [[2]; [3]] None, None) /\
  snapshot_coupling
    (snapshot_s2s_weight ["A"; "B"]%string cross_amp 1) x = [[2]; [2]].
Proof.
  unfold inject_crosstalk_inside_SQUID,
    inject_crosstalk_SQUID_to_SQUID, inside_tsout, s2s_tsout,
    snapshot_coupling, cross_amp_of, write_back.
  cbn. repeat split; repeat f_equal; simpl; lra.
Qed.

(** C8. When every detector has the same SQUID id, the inter-SQUID
    routine leaves every timestream as it was: [bolo_data] keeps its
    contents whatever happens, a completed call delivers the input
    timestreams (in place, or as a copy in [new_array]), and the call
    completes when the channel array covers the detectors. *)
Theorem SQUID_to_SQUID_single_SQUID_noop b squid_ids bolo_ids mu sigma
  att seed (s : string) :
  (forall bolo, (bolo < length (bolo_data b))%nat ->
                nth_error squid_ids bolo = Some s) ->
  let r := inject_crosstalk_SQUID_to_SQUID gauss b squid_ids bolo_ids mu
             sigma att seed in
  bolo_data (fst r) = bolo_data b /\
  (snd r = None -> delivered (fst r) = bolo_data b) /\
  ((length (bolo_data b) <= length bolo_ids)%nat ->
   r = (write_back b (bolo_data b), None)).
Proof.
  intros Hs r.
  assert (Hsq : (length (bolo_data b) <= length squid_ids)%nat).
  { destruct (bolo_data b) as [|r0 t] eqn:E; simpl; [lia|].
    assert (H : nth_error squid_ids (length t) = Some s)
      by (apply Hs; simpl; lia).
    assert (H' : nth_error squid_ids (length t) <> None) by congruence.
    apply nth_error_Some in H'. lia. }
  assert (Hmain : (length (bolo_data b) <= length bolo_ids)%nat ->
                  r = (write_back b (bolo_data b), None)).
  { intros Hids.
    destruct (call_combs_total squid_ids bolo_ids (bolo_data b) Hsq Hids)
      as [combs Hc].
    unfold r, inject_crosstalk_SQUID_to_SQUID, s2s_tsout.
    rewrite Hc; simpl.
    destruct (call_combs_ok _ _ _ _ Hc) as [_ Hk].
    assert (Hall : forall sq l, In (sq, l) combs -> sq = s).
    { intros sq l Hin. destruct (Hk sq l Hin) as [bolo [Hlt Hn]].
      rewrite (Hs bolo Hlt) in Hn. congruence. }
    rewrite (s2s_first_single _ _ _ _ _ s Hall Hall).
    now rewrite copy_plus_zero_id. }
  destruct (le_lt_dec (length (bolo_data b)) (length bolo_ids))
    as [Hids|Hids].
  - rewrite (Hmain Hids); simpl.
    rewrite bolo_data_write_back, delivered_write_back. auto.
  - assert (Hr : r = (b, Some IndexError)).
    { unfold r, inject_crosstalk_SQUID_to_SQUID, s2s_tsout.
      now rewrite (call_combs_short _ _ _ (or_intror Hids)). }
    rewrite Hr; simpl. split; auto. split; [discriminate|].
    intros; lia.
Qed.

(** C9. Whatever the language (the Fortran kernel being the one the
    specification describes), for a [new_array] that is [bolo_data]-like
    when given: the call completes when the id arrays cover the
    detectors; with [radius = 0], [bolo_data] keeps its contents
    whatever happens and a completed call delivers the input
    timestreams (in place, or as a copy in [new_array]); and whatever
    the radius, a completed call delivers the timestream of a detector
    that is alone in its SQUID as it was. *)
Theorem inside_SQUID_noop b squid_ids bolo_ids mu sigma radius beta seed
  language :
  new_array_like b ->
  let r := inject_crosstalk_inside_SQUID gauss
             inject_crosstalk_inside_squid_f_spec b squid_ids bolo_ids mu
             sigma radius beta seed language in
  ((length (bolo_data b) <= length squid_ids)%nat ->
   (length (bolo_data b) <= length bolo_ids)%nat -> snd r = None) /\
  (radius = 0%Z ->
   bolo_data (fst r) = bolo_data b /\
   (snd r = None -> delivered (fst r) = bolo_data b)) /\
  (forall i s,
     (i < length (bolo_data b))%nat ->
     nth_error squid_ids i = Some s ->
     (forall j, (j < length (bolo_data b))%nat -> j <> i ->
                nth_error squid_ids j <> Some s) ->
     snd r = None ->
     get_row (delivered (fst r)) i = get_row (bolo_data b) i).
Proof.
  intros _ r.
  unfold r, inject_crosstalk_inside_SQUID, inside_tsout.
  destruct (build_combs squid_ids bolo_ids (seq 0 (length (bolo_data b)))
              []) as [combs|e] eqn:Hc; simpl.
  - destruct (call_combs_ok _ _ _ _ Hc) as [Hm _].
    rewrite copy_plus_zero_id.
    split; [auto|]. split.
    + intros ->.
      rewrite inside_python_radius_0, inside_fortran_spec_radius_0.
      replace (if String.eqb language "python"
               then bolo_data b
               else if String.eqb language "fortran"
                    then bolo_data b else bolo_data b)
        with (bolo_data b)
        by now destruct (String.eqb language "python"),
                        (String.eqb language "fortran").
      rewrite bolo_data_write_back, delivered_write_back. auto.
    + intros i s Hi Hsi Hunique _.
      rewrite delivered_write_back.
      assert (Hfar : forall sq members ch ch2 i2,
                In (sq, members) combs -> In (ch, i) members ->
                In (ch2, i2) members ->
                coupled radius (Z.abs (ch - ch2)) = false).
      { intros sq members ch ch2 i2 Hin H1 H2.
        destruct (Hm sq members ch i Hin H1) as [_ [Hs1 Hc1]].
        destruct (Hm sq members ch2 i2 Hin H2) as [Hlt2 [Hs2 Hc2]].
        assert (sq = s) by congruence; subst sq.
        assert (i2 = i).
        { destruct (Nat.eq_dec i2 i) as [|Hne]; auto.
          exfalso. now apply (Hunique i2 Hlt2 Hne). }
        subst i2.
        assert (ch2 = ch) by congruence; subst ch2.
        rewrite Z.sub_diag. reflexivity. }
      destruct (String.eqb language "python").
      * now apply inside_python_row.
      * destruct (String.eqb language "fortran"); auto.
        now apply inside_fortran_spec_row.
  - split; [|split].
    + intros H1 H2.
      destruct (call_combs_total squid_ids bolo_ids (bolo_data b) H1 H2)
        as [combs Hc']. congruence.
    + intros _. split; [reflexivity | discriminate].
    + intros; discriminate.
Qed.
End CrosstalkClaims.

(** ** Kernel fitter *)

Lemma Rsum_nonneg (l : list R) :
  Forall (fun v => 0 <= v) l -> 0 <= Rsum l.
Proof.
  induction 1 as [|v l Hv _ IH]; simpl; lra.
Qed.

Lemma residual_nonneg A b x : 0 <= residual A b x.
Proof.
  unfold residual. apply Rsum_nonneg.
  revert b. induction A as [|row A IH]; intros [|bi b]; simpl; auto.
  constructor; auto. apply Rle_0_sqr.
Qed.

Lemma dot_zeros (row : list R) (n : nat) : dot row (repeat 0 n) = 0.
Proof.
  unfold dot, vmul. revert n.
  induction row as [|r row IH]; intros [|n]; simpl; auto.
  rewrite IH. lra.
Qed.

(** The zero vector fits a zero target exactly. *)
Lemma residual_zero_target A b n :
  Forall (fun v => v = 0) b -> residual A b (repeat 0 n) = 0.
Proof.
  unfold residual. intros Hb. revert A.
  induction Hb as [|bi b Hbi _ IH]; intros [|row A]; simpl; auto.
  rewrite IH, dot_zeros, Hbi. lra.
Qed.

Lemma norm2_zero_6 (x : list R) :
  length x = 6%nat -> norm2 x <= 0 -> x = [0; 0; 0; 0; 0; 0].
Proof.
  intros Hlen H.
  destruct x as [|x0 [|x1 [|x2 [|x3 [|x4 [|x5 [|]]]]]]]; try discriminate.
  unfold norm2, dot, vmul in H; simpl in H.
  assert (x0 = 0) by nra. assert (x1 = 0) by nra. assert (x2 = 0) by nra.
  assert (x3 = 0) by nra. assert (x4 = 0) by nra. assert (x5 = 0) by nra.
  subst; reflexivity.
Qed.

(** The identity kernel picks the first column of the design matrix. *)
Lemma dot_identity_kernel (r0 r1 r2 r3 r4 r5 : R) :
  dot [r0; r1; r2; r3; r4; r5] [1; 0; 0; 0; 0; 0] = r0.
Proof. unfold dot, vmul; simpl. lra. Qed.

(** It fits a target that is the first channel of the design matrix
    exactly. *)
Lemma residual_identity_kernel (F : nat -> list R) (c0 : list R) :
  (forall p, dot (F p) [1; 0; 0; 0; 0; 0] = nth p c0 0) ->
  forall (b : list R) (k : nat),
    (forall j, (j < length b)%nat -> nth (k + j) c0 0 = nth j b 0) ->
    residual (map F (seq k (length b))) b [1; 0; 0; 0; 0; 0] = 0.
Proof.
  intros HF. unfold residual.
  induction b as [|bi b IH]; intros k H; simpl; auto.
  rewrite HF, (IH (S k)).
  - specialize (H 0%nat (Nat.lt_0_succ _)).
    rewrite Nat.add_0_r in H. simpl in H. rewrite H. lra.
  - intros j Hj. specialize (H (S j)). simpl in H.
    rewrite <- H by lia. f_equal. lia.
Qed.

(** The all-zero kernel is the fit of a zero target. *)
Lemma split_deriv_zero_target sumbeam diffbeam pix_size x :
  Forall (fun v => v = 0) (flatten diffbeam) ->
  split_deriv sumbeam diffbeam pix_size x ->
  x = [0; 0; 0; 0; 0; 0].
Proof.
  intros Hb [_ [Hlen [_ Hmin]]].
  apply norm2_zero_6; auto.
  assert (H0 : residual (split_deriv_A sumbeam pix_size)
                 (split_deriv_b diffbeam) (repeat 0 6) = 0)
    by now apply residual_zero_target.
  specialize (Hmin (repeat 0 6) eq_refl).
  rewrite H0 in Hmin.
  specialize (Hmin (residual_nonneg _ _ _)).
  unfold norm2 in *. rewrite dot_zeros in Hmin. exact Hmin.
Qed.

Lemma length_flatten (nt : nat) (a : list (list R)) :
  rect nt a -> length (flatten a) = (length a * nt)%nat.
Proof.
  unfold flatten. induction 1 as [|r a Hr _ IH]; simpl; auto.
  rewrite length_app, IH, Hr. reflexivity.
Qed.

Lemma length_split_deriv_A sumbeam pix_size :
  length (split_deriv_A sumbeam pix_size) =
  (fst (shape2 sumbeam) * snd (shape2 sumbeam))%nat.
Proof.
  unfold split_deriv_A, design. now rewrite length_map, length_seq.
Qed.

(** Maps of one shape give a design matrix and a target of one
    length. *)
Lemma split_deriv_lengths sumbeam diffbeam pix_size :
  shape2 diffbeam = shape2 sumbeam ->
  rect (snd (shape2 sumbeam)) diffbeam ->
  length (split_deriv_A sumbeam pix_size) =
  length (split_deriv_b diffbeam).
Proof.
  intros Hs Hr. rewrite length_split_deriv_A. unfold split_deriv_b.
  rewrite (length_flatten _ _ Hr).
  now replace (length diffbeam) with (fst (shape2 sumbeam))
    by (rewrite <- Hs; reflexivity).
Qed.

Lemma norm2_nonneg (x : list R) : 0 <= norm2 x.
Proof.
  unfold norm2, dot, vmul. apply Rsum_nonneg.
  induction x as [|v x IH]; simpl; constructor; auto.
  apply Rle_0_sqr.
Qed.

(** The all-zero kernel is a least-squares solution for a zero
    target. *)
Lemma lstsq_solution_zero_target A b :
  Forall (fun v => v = 0) b -> lstsq_solution 6 A b [0; 0; 0; 0; 0; 0].
Proof.
  intros Hb. split; [reflexivity|].
  change [0; 0; 0; 0; 0; 0] with (repeat 0 6).
  rewrite (residual_zero_target A b 6 Hb). split.
  - intros y _. apply residual_nonneg.
  - intros y _ _. unfold norm2 at 1. rewrite dot_zeros.
    apply norm2_nonneg.
Qed.

(** The identity kernel fits the sum-beam map exactly. *)
Lemma residual_identity_fit sumbeam pix_size :
  length (split_deriv_A sumbeam pix_size) =
    length (split_deriv_b sumbeam) ->
  residual (split_deriv_A sumbeam pix_size) (split_deriv_b sumbeam)
    [1; 0; 0; 0; 0; 0] = 0.
Proof.
  unfold split_deriv_A, design, derivs.
  set (n := (fst (shape2 sumbeam) * snd (shape2 sumbeam))%nat).
  cbn [map]. rewrite length_map, length_seq. intros Hlen.
  rewrite Hlen.
  apply (residual_identity_kernel _ (flatten sumbeam)).
  - intros p. apply dot_identity_kernel.
  - intros j _. reflexivity.
Qed.

(** The all-zero kernel misses a target that is not zero. *)
Lemma residual_zero_kernel_pos A b :
  length A = length b -> ~ Forall (fun v => v = 0) b ->
  0 < residual A b [0; 0; 0; 0; 0; 0].
Proof.
  change [0; 0; 0; 0; 0; 0] with (repeat 0 6).
  revert b. induction A as [|row A IH]; intros [|bi b] Hlen Hb;
    simpl in Hlen; try discriminate.
  - exfalso. apply Hb. constructor.
  - unfold residual, Rsum. cbn [map2 fold_right]. rewrite dot_zeros.
    change (fold_right Rplus 0
              (map2 (fun row bi => (dot row (repeat 0 6) - bi) *
                                   (dot row (repeat 0 6) - bi)) A b))
      with (residual A b (repeat 0 6)).
    pose proof (residual_nonneg A b (repeat 0 6)) as Hrest.
    destruct (Req_dec bi 0) as [->|Hne].
    + assert (0 < residual A b (repeat 0 6)).
      { apply IH; [congruence|]. intros Hall. apply Hb.
        constructor; auto. }
      lra.
    + assert (0 < (0 - bi) * (0 - bi)) by nra. lra.
Qed.

(** C2, as the code has it. For maps of one shape, the fit is the
    least-squares problem [design(sumbeam) x = diffbeam]. When the
    difference-beam map is zero everywhere (the two beams of the pair
    are identical), the all-zero kernel is its solution, and the only
    one. When the difference-beam map is the sum-beam map, the kernel
    [(1, 0, 0, 0, 0, 0)] fits exactly, and the all-zero kernel is not a
    solution unless the map is zero. *)
Theorem split_deriv_exactness sumbeam diffbeam pix_size :
  shape2 diffbeam = shape2 sumbeam ->
  rect (snd (shape2 sumbeam)) diffbeam ->
  let A := split_deriv_A sumbeam pix_size in
  let b := split_deriv_b diffbeam in
  (Forall (fun v => v = 0) (flatten diffbeam) ->
   split_deriv sumbeam diffbeam pix_size [0; 0; 0; 0; 0; 0] /\
   forall x, split_deriv sumbeam diffbeam pix_size x ->
             x = [0; 0; 0; 0; 0; 0]) /\
  (diffbeam = sumbeam ->
   residual A b [1; 0; 0; 0; 0; 0] = 0 /\
   (~ Forall (fun v => v = 0) (flatten sumbeam) ->
    0 < residual A b [0; 0; 0; 0; 0; 0] /\
    ~ split_deriv sumbeam diffbeam pix_size [0; 0; 0; 0; 0; 0])).
Proof.
  intros Hs Hr A b.
  pose proof (split_deriv_lengths sumbeam diffbeam pix_size Hs Hr) as Hlen.
  split.
  - intros Hb. split.
    + split; [exact Hlen|]. now apply lstsq_solution_zero_target.
    + intros x Hx. eapply split_deriv_zero_target; eauto.
  - intros ->. fold A b in Hlen.
    assert (Hfit : residual A b [1; 0; 0; 0; 0; 0] = 0)
      by now apply residual_identity_fit.
    split; auto. intros Hne.
    assert (Hpos : 0 < residual A b [0; 0; 0; 0; 0; 0])
      by now apply residual_zero_kernel_pos.
    split; auto.
    intros [_ [_ [Hmin _]]].
    specialize (Hmin [1; 0; 0; 0; 0; 0] eq_refl).
    fold A b in Hmin. lra.
Qed.

Lemma split_deriv_A_unit_map :
  split_deriv_A [[1]] 1 = [[1; 0; 0; 0; 0; 0]].
Proof.
  unfold split_deriv_A, design, derivs, xderiv, yderiv, neg2,
    convolve2d_same, flatten, at2.
  cbn. simpl. repeat f_equal; lra.
Qed.

Lemma split_deriv_unit_identity :
  split_deriv [[1]] [[1]] 1 [1; 0; 0; 0; 0; 0].
Proof.
  unfold split_deriv. rewrite split_deriv_A_unit_map.
  unfold split_deriv_b, flatten; simpl.
  split; [reflexivity|]. split; [reflexivity|]. split.
  - intros y _. unfold residual at 1, dot, vmul; simpl.
    pose proof (residual_nonneg [[1; 0; 0; 0; 0; 0]] [1] y). lra.
  - intros y Hlen.
    destruct y as [|y0 [|y1 [|y2 [|y3 [|y4 [|y5 [|]]]]]]];
      try discriminate.
    unfold residual, norm2, dot, vmul; simpl. intros H. nra.
Qed.

(** C2, the claim refuted. For the one-pixel maps [sumbeam = diffbeam =
    [[1]]] the kernel fitter returns [(1, 0, 0, 0, 0, 0)]: the difference
    beam is the sum beam itself, so the fit is the identity term. *)
Lemma split_deriv_equal_maps_not_zero :
  split_deriv [[1]] [[1]] 1 [1; 0; 0; 0; 0; 0] /\
  [1; 0; 0; 0; 0; 0] <> [0; 0; 0; 0; 0; 0].
Proof.
  split; [exact split_deriv_unit_identity|].
  intros H. inversion H. lra.
Qed.

(** ** Spin selector and kernel rotator *)

Lemma two_dot_zero : 2.0 = 2.
Proof. lra. Qed.

(** In exact arithmetic the three spin-selected kernels add up to the
    kernel they were selected from, and selecting the three spins at
    once returns it. *)
Lemma spin_sum_exact (K : kernel) :
  kadd (kadd (fixspin K "0") (fixspin K "1")) (fixspin K "2") = K /\
  fixspin K "012" = K.
Proof.
  destruct K as [a b c d e f]. unfold fixspin, kadd; cbn.
  split; f_equal; lra.
Qed.

(** Closes [L = X] when [L] is [X] times a power of
    [sin^2 + cos^2]. *)
Ltac by_pythagoras H :=
  match type of H with
  | ?u = 1 =>
      match goal with
      | |- ?L = ?X =>
          first [ transitivity (u * X); [ring | rewrite H; ring]
                | transitivity (u * u * X); [ring | rewrite H; ring] ]
      end
  end.

(** In exact arithmetic a rotation by the angle 0 returns the kernel,
    and a rotation by [theta] followed by one by [- theta] returns it as
    well. *)
Lemma round_trip_exact (K : kernel) :
  rotate_deriv K 0 = K /\
  forall theta, rotate_deriv (rotate_deriv K theta) (- theta) = K.
Proof.
  destruct K as [a b c d e f]. split.
  - unfold rotate_deriv; cbn. rewrite cos_0, sin_0. f_equal; lra.
  - intros theta. unfold rotate_deriv; cbn.
    rewrite cos_neg, sin_neg, !two_dot_zero.
    pose proof (sin2_cos2 theta) as H. unfold Rsqr in H.
    set (c0 := cos theta) in *. set (s0 := sin theta) in *.
    f_equal; try lra; by_pythagoras H.
Qed.

(** ** Leakage projector *)

Lemma length_masked_iadd (a : list R) (mask : list bool) (vals : list R) :
  length (masked_iadd a mask vals) = length a.
Proof.
  revert mask vals.
  induction a as [|x a IH]; intros [|[|] mask] vals; simpl; auto.
  destruct vals; simpl; auto.
Qed.

Lemma fold_left_Rplus (l : list R) (x : R) :
  fold_left Rplus l x = x + Rsum l.
Proof.
  revert x. induction l as [|v l IH]; intros x; simpl; [lra|].
  rewrite IH. lra.
Qed.

(** One pass of the coefficient loop, seen at sample [t]. *)
Lemma coeff_step_nth (Ic : list R) (Kpix : kernel) (coeff : nat) :
  forall (i1d : list Z) (orientation row vals : list R) t p theta x,
    length i1d = length row -> length orientation = length row ->
    let okpointing := map (fun p => negb (p =? -1)%Z) i1d in
    take Ic (select okpointing i1d) = Ok vals ->
    nth_error i1d t = Some p -> nth_error orientation t = Some theta ->
    nth_error row t = Some x ->
    let row' :=
      masked_iadd row okpointing
        (vmul vals
           (map (fun a => kget (rotate_deriv Kpix a) coeff)
                (map Ropp (select okpointing orientation)))) in
    (p = (-1)%Z -> nth_error row' t = Some x) /\
    (p <> (-1)%Z ->
     exists v, take1 Ic p = Ok v /\
       nth_error row' t =
       Some (x + v * kget (rotate_deriv Kpix (- theta)) coeff)).
Proof.
  induction i1d as [|p0 i1d IH];
    intros [|th0 orientation] [|x0 row] vals t p theta x Hl1 Hl2;
    simpl in *; try discriminate.
  - intros _ Ht; destruct t; discriminate.
  - injection Hl1 as Hl1. injection Hl2 as Hl2.
    destruct (p0 =? -1)%Z eqn:Ep; simpl.
    + apply Z.eqb_eq in Ep. intros Htake Hp Hth Hx.
      destruct t as [|t]; simpl in *.
      * inversion Hp; inversion Hx; subst. split; auto.
        intros Hne; congruence.
      * eapply IH; eauto.
    + apply Z.eqb_neq in Ep. unfold bind.
      destruct (take1 Ic p0) as [v0|] eqn:E0; try discriminate.
      destruct (take Ic _) as [vals'|] eqn:E1; try discriminate.
      intros Htake Hp Hth Hx. inversion Htake; subst vals; simpl.
      destruct t as [|t]; simpl in *.
      * inversion Hp; inversion Hx; inversion Hth; subst. split.
        -- intros; congruence.
        -- intros _. exists v0; auto.
      * eapply IH; eauto.
Qed.

Lemma nth_rotate_deriv_array (Kpix : kernel) (theta : list R) coeff :
  (coeff < 6)%nat ->
  nth coeff (rotate_deriv_array Kpix theta) [] =
  map (fun a => kget (rotate_deriv Kpix a) coeff) theta.
Proof.
  intros H. unfold rotate_deriv_array.
  do 6 (destruct coeff as [|coeff]; [reflexivity|]). lia.
Qed.

(** The coefficient loop, seen at sample [t]. *)
Lemma coeff_loop_nth I (Kpix : kernel) (i1d : list Z)
  (orientation : list R) t p theta :
  nth_error i1d t = Some p -> nth_error orientation t = Some theta ->
  let okpointing := map (fun p => negb (p =? -1)%Z) i1d in
  let k := rotate_deriv_array Kpix
             (map Ropp (select okpointing orientation)) in
  forall coeffs row row' x,
    (forall c, In c coeffs -> (c < 6)%nat) ->
    length i1d = length row -> length orientation = length row ->
    coeff_loop I (select okpointing i1d) k okpointing coeffs row =
      (row', None) ->
    nth_error row t = Some x ->
    length row' = length row /\
    (p = (-1)%Z -> nth_error row' t = Some x) /\
    (p <> (-1)%Z ->
     exists terms, leak_terms I Kpix theta p coeffs = Ok terms /\
       nth_error row' t = Some (fold_left Rplus terms x)).
Proof.
  intros Hp Hth okpointing k.
  induction coeffs as [|c rest IH]; intros row row' x Hc Hl1 Hl2 Hloop Hx;
    cbn [coeff_loop] in Hloop.
  - inversion Hloop; subst. split; auto. split; auto.
    intros _. exists []; simpl; auto.
  - destruct (take (nth c I []) (select okpointing i1d)) as [vals|]
      eqn:Et; try discriminate.
    change (nth c k []) with
      (nth c (rotate_deriv_array Kpix
                (map Ropp (select okpointing orientation))) []) in Hloop.
    rewrite (nth_rotate_deriv_array Kpix _ c) in Hloop
      by (apply Hc; simpl; auto).
    destruct (coeff_step_nth (nth c I []) Kpix c i1d orientation row vals
                t p theta x Hl1 Hl2 Et Hp Hth Hx) as [Hs1 Hs2].
    set (row1 := masked_iadd row okpointing _) in *.
    assert (Hlen1 : length row1 = length row)
      by apply length_masked_iadd.
    assert (Hc' : forall c0, In c0 rest -> (c0 < 6)%nat)
      by (intros c0 Hin; apply Hc; simpl; auto).
    assert (Hl1' : length i1d = length row1) by congruence.
    assert (Hl2' : length orientation = length row1) by congruence.
    destruct (Z.eq_dec p (-1)) as [Hm|Hm].
    + destruct (IH row1 row' x Hc' Hl1' Hl2' Hloop (Hs1 Hm))
        as [Hlen [H1 _]].
      split; [congruence|]. split; auto. intros; congruence.
    + destruct (Hs2 Hm) as [v [Hv Hrow1]].
      destruct (IH row1 row' _ Hc' Hl1' Hl2' Hloop Hrow1)
        as [Hlen [_ H2]].
      split; [congruence|]. split; [intros; congruence|].
      intros _. destruct (H2 Hm) as [terms [Hterms Hrow']].
      simpl. rewrite Hv, Hterms; simpl. eexists; split; eauto.
Qed.

(** The body of the pixel loop, seen at sample [t]. *)
Lemma pix_body_nth I (Kpix : kernel) (i1d : list Z)
  (orientation row row' : list R) t p theta x :
  length i1d = length row -> length orientation = length row ->
  pix_body I Kpix i1d orientation row = (row', None) ->
  nth_error i1d t = Some p -> nth_error orientation t = Some theta ->
  nth_error row t = Some x ->
  length row' = length row /\
  (p = (-1)%Z -> nth_error row' t = Some x) /\
  (p <> (-1)%Z ->
   exists leak, leakage I Kpix theta p = Ok leak /\
     nth_error row' t = Some (x + leak)).
Proof.
  intros Hl1 Hl2 Hbody Hp Hth Hx. unfold pix_body in Hbody.
  assert (Hk : forall th, length (rotate_deriv_array Kpix th) = 6%nat)
    by reflexivity.
  rewrite Hk in Hbody.
  destruct (coeff_loop_nth I Kpix i1d orientation t p theta Hp Hth
              (seq 0 6) row row' x) as [Hlen [H1 H2]]; auto.
  { intros c Hin; apply in_seq in Hin; lia. }
  split; auto. split; auto.
  intros Hm. destruct (H2 Hm) as [terms [Hterms Hrow']].
  unfold leakage. rewrite Hterms; simpl.
  eexists; split; eauto. now rewrite Hrow', fold_left_Rplus.
Qed.

(** A row keeps its length when the body fails, too. *)
Lemma length_coeff_loop I io k okpointing coeffs :
  forall row, length (fst (coeff_loop I io k okpointing coeffs row)) =
              length row.
Proof.
  induction coeffs as [|c rest IH]; intros row; simpl; auto.
  destruct (take _ _); simpl; auto.
  rewrite IH. apply length_masked_iadd.
Qed.

Lemma length_pix_body I Kpix i1d orientation row :
  length (fst (pix_body I Kpix i1d orientation row)) = length row.
Proof. unfold pix_body. apply length_coeff_loop. Qed.

(** The pixel loop: the rows it has run on are the results of the loop
    body, the others are as they were. *)
Lemma pix_loop_rows I pm bo K :
  forall ipixs out out',
    NoDup ipixs ->
    (forall ipix, In ipix ipixs -> (ipix < length out)%nat) ->
    pix_loop I pm bo K ipixs out = (out', None) ->
    length out' = length out /\
    forall ipix,
      (In ipix ipixs ->
       pix_body I (nth ipix K zero_kernel) (nth ipix pm [])
         (get_row bo ipix) (get_row out ipix) = (get_row out' ipix, None))
      /\ (~ In ipix ipixs -> get_row out' ipix = get_row out ipix).
Proof.
  induction ipixs as [|i0 rest IH]; intros out out' Hnd Hlt Hloop;
    simpl in Hloop.
  - inversion Hloop; subst. split; auto.
    intros ipix; split; [intros [] | reflexivity].
  - destruct (pix_body I (nth i0 K zero_kernel) (nth i0 pm [])
                (get_row bo i0) (get_row out i0)) as [row [e|]] eqn:Eb;
      try discriminate.
    inversion Hnd as [|? ? Hnotin Hnd']; subst.
    destruct (IH (set_row out i0 row) out' Hnd') as [Hlen Hrows]; auto.
    { intros ipix Hin. rewrite length_set_row. apply Hlt; simpl; auto. }
    rewrite length_set_row in Hlen. split; auto.
    intros ipix; split.
    + intros [->|Hin].
      * destruct (Hrows ipix) as [_ Hsame]. rewrite (Hsame Hnotin).
        rewrite get_set_row_same by (apply Hlt; simpl; auto). exact Eb.
      * destruct (Hrows ipix) as [Hrun _]. specialize (Hrun Hin).
        rewrite get_set_row_other in Hrun by congruence. exact Hrun.
    + intros Hnot. destruct (Hrows ipix) as [_ Hsame].
      rewrite Hsame by (simpl in Hnot; tauto).
      apply get_set_row_other. simpl in Hnot; tauto.
Qed.

Lemma shape_eqb_eq (s s' : nat * nat) : shape_eqb s s' = true <-> s = s'.
Proof.
  destruct s as [a b], s' as [a' b']. unfold shape_eqb; simpl.
  rewrite andb_true_iff, !Nat.eqb_eq. split.
  - intros [-> ->]; reflexivity.
  - intros E; inversion E; auto.
Qed.

Lemma rect_nth {A : Type} (nt : nat) (a : list (list A)) (i : nat) :
  rect nt a -> (i < length a)%nat -> length (nth i a []) = nt.
Proof.
  intros Hr Hi. unfold rect in Hr. rewrite Forall_forall in Hr.
  apply Hr. now apply nth_In.
Qed.

Lemma nth_error_row_in_range {A : Type} (a : list (list A)) i t (x : A) :
  nth_error (nth i a []) t = Some x -> (i < length a)%nat.
Proof.
  intros H. destruct (Nat.lt_ge_cases i (length a)) as [|Hge]; auto.
  rewrite nth_overflow in H by auto. destruct t; discriminate.
Qed.

(** When no assertion fails, the pixel loop has run on every row. *)
Lemma diffbeam_map2tod_run out I pm bo K out' :
  diffbeam_map2tod out I pm bo K = (out', None) ->
  shape2 pm = shape2 out /\ length K = length out /\
  length I = 6%nat /\ shape2 bo = shape2 out /\
  pix_loop I pm bo K (seq 0 (length out)) out = (out', None).
Proof.
  unfold diffbeam_map2tod; simpl.
  destruct (shape_eqb (shape2 pm) (shape2 out)) eqn:E1; simpl;
    try discriminate.
  destruct (length K =? length out)%nat eqn:E2; simpl; try discriminate.
  destruct (length I =? 6)%nat eqn:E3; simpl; try discriminate.
  destruct (shape_eqb (shape2 bo) _) eqn:E4; simpl; try discriminate.
  apply shape_eqb_eq in E1, E4. apply Nat.eqb_eq in E2, E3.
  intros H; repeat split; auto.
Qed.

(** C4. When the projector completes on rectangular arrays, every sample
    of every pair is as follows: with the sentinel pixel -1 the entry of
    [out] is as it was; with any other pixel the entry has grown by the
    sum over the six coefficients of the kernel rotated by the negative
    of the sample's orientation times the stack at that pixel. *)
Theorem diffbeam_map2tod_samples out I pm bo K out' :
  rect (snd (shape2 out)) out -> rect (snd (shape2 out)) pm ->
  rect (snd (shape2 out)) bo ->
  diffbeam_map2tod out I pm bo K = (out', None) ->
  forall ipix t p theta x,
    nth_error (nth ipix pm []) t = Some p ->
    nth_error (get_row bo ipix) t = Some theta ->
    nth_error (get_row out ipix) t = Some x ->
    (p = (-1)%Z -> nth_error (get_row out' ipix) t = Some x) /\
    (p <> (-1)%Z ->
     exists leak,
       leakage I (nth ipix K zero_kernel) theta p = Ok leak /\
       nth_error (get_row out' ipix) t = Some (x + leak)).
Proof.
  intros Hro Hrp Hrb Hrun ipix t p theta x Hp Hth Hx.
  destruct (diffbeam_map2tod_run _ _ _ _ _ _ Hrun)
    as [Hsp [_ [_ [Hsb Hloop]]]].
  assert (Hi : (ipix < length out)%nat)
    by (eapply nth_error_row_in_range; exact Hx).
  assert (Hlp : length pm = length out) by (now inversion Hsp).
  assert (Hlb : length bo = length out) by (now inversion Hsb).
  destruct (pix_loop_rows I pm bo K (seq 0 (length out)) out out')
    as [_ Hrows]; auto using seq_NoDup.
  { intros i Hin; apply in_seq in Hin; lia. }
  destruct (Hrows ipix) as [Hbody _].
  specialize (Hbody (proj2 (in_seq _ _ _) (conj (Nat.le_0_l _) Hi))).
  assert (Hl1 : length (nth ipix pm []) = length (get_row out ipix)).
  { rewrite (rect_nth _ pm ipix Hrp) by lia.
    unfold get_row; now rewrite (rect_nth _ out ipix Hro). }
  assert (Hl2 : length (get_row bo ipix) = length (get_row out ipix)).
  { unfold get_row.
    rewrite (rect_nth _ bo ipix Hrb) by lia.
    now rewrite (rect_nth _ out ipix Hro). }
  destruct (pix_body_nth I _ _ _ _ _ t p theta x Hl1 Hl2 Hbody Hp Hth Hx)
    as [_ H].
  exact H.
Qed.

(** The projector keeps the shape of [out], whether it completes or
    not. *)
Lemma pix_loop_shape I pm bo K (nt : nat) :
  forall ipixs out,
    rect nt out ->
    length (fst (pix_loop I pm bo K ipixs out)) = length out /\
    rect nt (fst (pix_loop I pm bo K ipixs out)).
Proof.
  assert (Hset : forall (out : tod) i row,
            rect nt out -> (i < length out)%nat -> length row = nt ->
            rect nt (set_row out i row)).
  { induction out as [|r out IHo]; intros [|i] row Hr Hi Hrow;
      simpl in *; try lia; inversion Hr; subst; constructor; auto.
    apply IHo; auto; lia. }
  assert (Hset' : forall (out : tod) i row,
            rect nt out -> (length out <= i)%nat ->
            set_row out i row = out).
  { induction out as [|r out IHo]; intros [|i] row Hr Hi;
      simpl in *; try lia; auto.
    inversion Hr; subst. f_equal. apply IHo; auto; lia. }
  induction ipixs as [|i0 rest IH]; intros out Hr; simpl; auto.
  pose proof (length_pix_body I (nth i0 K zero_kernel) (nth i0 pm [])
                (get_row bo i0) (get_row out i0)) as Hlen.
  destruct (pix_body _ _ _ _ _) as [row [e|]]; simpl in *.
  - rewrite length_set_row. split; auto.
    destruct (Nat.lt_ge_cases i0 (length out)).
    + apply Hset; auto. rewrite Hlen. unfold get_row.
      now apply rect_nth.
    + now rewrite Hset'.
  - assert (Hr1 : rect nt (set_row out i0 row)).
    { destruct (Nat.lt_ge_cases i0 (length out)).
      + apply Hset; auto. rewrite Hlen. unfold get_row.
        now apply rect_nth.
      + now rewrite Hset'. }
    destruct (IH _ Hr1) as [H1 H2]. rewrite length_set_row in H1. auto.
Qed.

Lemma diffbeam_map2tod_shape out I pm bo K (nt : nat) :
  rect nt out ->
  length (fst (diffbeam_map2tod out I pm bo K)) = length out /\
  rect nt (fst (diffbeam_map2tod out I pm bo K)).
Proof.
  intros Hr. unfold diffbeam_map2tod.
  repeat (match goal with
          | |- context [if ?c then _ else _] => destruct c
          end; simpl; auto).
  now apply pix_loop_shape.
Qed.

(** ** Injection of the leakage into the pairs *)

Lemma length_imap {A B : Type} (f : nat -> A -> B) (l : list A) :
  forall i, length (imap f i l) = length l.
Proof. induction l as [|x l IH]; intros i; simpl; auto. Qed.

Lemma get_row_imap (f : nat -> list R -> list R) (w : tod) :
  forall i0 j, (j < length w)%nat ->
    get_row (imap f i0 w) j = f (i0 + j)%nat (get_row w j).
Proof.
  unfold get_row.
  induction w as [|r w IH]; intros i0 [|j] Hj; simpl in *; try lia.
  - now rewrite Nat.add_0_r.
  - rewrite IH by lia. f_equal. lia.
Qed.

(** A row of a slice update. *)
Lemma slice2_iop_row op start w leak w1 :
  slice2_iop op start w leak = Ok w1 ->
  length w1 = length w /\
  (((length w + 1 - start) / 2)%nat <> length leak ->
   length leak = 1%nat) /\
  forall i, (i < length w)%nat ->
    get_row w1 i =
    if in_slice start i
    then map2 op (get_row w i)
           (get_row leak
              (if ((length w + 1 - start) / 2 =? length leak)%nat
               then ((i - start) / 2)%nat else 0%nat))
    else get_row w i.
Proof.
  unfold slice2_iop.
  destruct ((length w + 1 - start) / 2 =? length leak)%nat eqn:E.
  - intros H; inversion H; subst. rewrite length_imap.
    apply Nat.eqb_eq in E. split; auto. split; [congruence|].
    intros i Hi. now rewrite get_row_imap.
  - destruct (length leak =? 1)%nat eqn:E1; try discriminate.
    intros H; inversion H; subst. rewrite length_imap.
    apply Nat.eqb_eq in E1. split; auto. split; auto.
    intros i Hi. now rewrite get_row_imap.
Qed.

Lemma nth_pair_sum (a b l : list R) (t : nat) :
  length a = length l -> length b = length l ->
  nth t (map2 Rplus a l) 0 + nth t (map2 Rminus b l) 0 =
  nth t a 0 + nth t b 0.
Proof.
  revert b l t.
  induction a as [|x a IH]; intros [|y b] [|z l] [|t] Ha Hb;
    simpl in *; try discriminate; try lra.
  apply IH; congruence.
Qed.

Lemma rect_repeat (x : R) (nt n : nat) : rect nt (repeat (repeat x nt) n).
Proof.
  unfold rect. apply Forall_forall. intros r Hin.
  apply repeat_spec in Hin; subst. apply repeat_length.
Qed.

Lemma even_double (k : nat) : Nat.even (2 * k) = true.
Proof. rewrite Nat.even_mul. reflexivity. Qed.

Lemma in_slice_0_even (k : nat) : in_slice 0 (2 * k) = true.
Proof. unfold in_slice. now rewrite Nat.sub_0_r, even_double. Qed.

Lemma in_slice_0_odd (k : nat) : in_slice 0 (2 * k + 1) = false.
Proof.
  unfold in_slice. rewrite Nat.sub_0_r, Nat.add_1_r.
  now rewrite Nat.even_succ, <- Nat.negb_even, even_double.
Qed.

Lemma in_slice_1_even (k : nat) : in_slice 1 (2 * k) = false.
Proof.
  unfold in_slice. destruct k as [|k]; [reflexivity|].
  replace (2 * S k - 1)%nat with (S (2 * k)) by lia.
  rewrite Nat.even_succ, <- Nat.negb_even, even_double.
  apply andb_false_r.
Qed.

Lemma in_slice_1_odd (k : nat) : in_slice 1 (2 * k + 1) = true.
Proof.
  unfold in_slice.
  replace (2 * k + 1 - 1)%nat with (2 * k)%nat by lia.
  rewrite even_double, andb_true_r. apply Nat.leb_le. lia.
Qed.

(** The pair sums after a completed call. *)
Lemma pair_sum_completed waferts pm bo I K pairlist spins waferts' :
  rect (snd (shape2 waferts)) waferts ->
  waferts_add_diffbeam waferts pm bo I K pairlist spins =
    (waferts', None) ->
  forall k t, (2 * k + 1 < length waferts)%nat ->
    nth t (get_row waferts' (2 * k)) 0 +
    nth t (get_row waferts' (2 * k + 1)) 0 =
    nth t (get_row waferts (2 * k)) 0 +
    nth t (get_row waferts (2 * k + 1)) 0.
Proof.
  intros Hr Hrun k t Hk. unfold waferts_add_diffbeam in Hrun.
  set (nt := snd (shape2 waferts)) in *.
  set (leak0 := repeat (repeat 0 nt) (fst (shape2 waferts) / 2)) in *.
  set (K' := map (fun Ki => fixspin Ki spins) (map detector_frame K)) in *.
  destruct (diffbeam_map2tod_shape leak0 I pm bo K' nt
              (rect_repeat 0 nt _)) as [Hlen Hrl].
  destruct (diffbeam_map2tod leak0 I pm bo K') as [leak [e|]];
    try discriminate.
  cbn [fst] in Hlen, Hrl. unfold leak0 in Hlen.
  rewrite repeat_length in Hlen.
  change (fst (shape2 waferts)) with (length waferts) in Hlen.
  destruct (slice2_iop Rplus 0 waferts leak) as [w1|] eqn:E1;
    try discriminate.
  destruct (slice2_iop Rminus 1 w1 leak) as [w2|] eqn:E2;
    try discriminate.
  inversion Hrun; subst w2; clear Hrun.
  destruct (slice2_iop_row _ _ _ _ _ E1) as [Hl1 [Hb1 Hrow1]].
  destruct (slice2_iop_row _ _ _ _ _ E2) as [Hl2 [_ Hrow2]].
  rewrite Hl1 in *.
  assert (Hcount : ((length waferts + 1 - 1) / 2 =? length leak)%nat = true).
  { apply Nat.eqb_eq. rewrite Hlen. f_equal. lia. }
  rewrite Hcount in Hrow2.
  rewrite (Hrow2 (2 * k)%nat), (Hrow2 (2 * k + 1)%nat) by lia.
  rewrite (Hrow1 (2 * k)%nat), (Hrow1 (2 * k + 1)%nat) by lia.
  rewrite in_slice_0_even, in_slice_0_odd, in_slice_1_even, in_slice_1_odd.
  replace (2 * k + 1 - 1)%nat with (2 * k)%nat by lia.
  rewrite !Nat.sub_0_r. rewrite Nat.sub_0_r in Hb1.
  assert (Hdiv : (2 * k / 2 = k)%nat)
    by (rewrite Nat.mul_comm; apply Nat.div_mul; lia).
  rewrite Hdiv.
  assert (Hsel : (if ((length waferts + 1) / 2 =? length leak)%nat
                  then k else 0%nat) = k).
  { destruct ((length waferts + 1) / 2 =? length leak)%nat eqn:E;
      auto.
    apply Nat.eqb_neq in E. specialize (Hb1 E).
    rewrite Hb1 in Hlen.
    assert (length waferts < 4)%nat.
    { destruct (Nat.lt_ge_cases (length waferts) 4) as [|Hge]; auto.
      exfalso.
      assert (4 / 2 <= length waferts / 2)%nat
        by (apply Nat.Div0.div_le_mono; lia).
      change (4 / 2)%nat with 2%nat in *. lia. }
    lia. }
  rewrite Hsel.
  apply nth_pair_sum.
  - unfold get_row. rewrite (rect_nth nt waferts) by (auto; lia).
    rewrite (rect_nth nt leak); auto.
    rewrite Hlen.
    apply (Nat.div_le_lower_bound (length waferts) 2 (S k)); lia.
  - unfold get_row. rewrite (rect_nth nt waferts) by (auto; lia).
    rewrite (rect_nth nt leak); auto.
    rewrite Hlen.
    apply (Nat.div_le_lower_bound (length waferts) 2 (S k)); lia.
Qed.

(** A call that raises leaves [waferts] as it was: the second slice
    update cannot fail once the first has passed. *)
Lemma waferts_add_diffbeam_raises waferts pm bo I K pairlist spins e :
  snd (waferts_add_diffbeam waferts pm bo I K pairlist spins) = Some e ->
  fst (waferts_add_diffbeam waferts pm bo I K pairlist spins) = waferts.
Proof.
  unfold waferts_add_diffbeam.
  set (nt := snd (shape2 waferts)).
  set (leak0 := repeat (repeat 0 nt) (fst (shape2 waferts) / 2)).
  set (K' := map (fun Ki => fixspin Ki spins) (map detector_frame K)).
  destruct (diffbeam_map2tod_shape leak0 I pm bo K' nt
              (rect_repeat 0 nt _)) as [Hlen _].
  destruct (diffbeam_map2tod leak0 I pm bo K') as [leak [e0|]]; auto.
  cbn [fst] in Hlen. unfold leak0 in Hlen.
  rewrite repeat_length in Hlen.
  change (fst (shape2 waferts)) with (length waferts) in Hlen.
  destruct (slice2_iop Rplus 0 waferts leak) as [w1|] eqn:E1; auto.
  destruct (slice2_iop_row _ _ _ _ _ E1) as [Hl1 _].
  unfold slice2_iop.
  rewrite Hl1, Nat.add_sub, Hlen, Nat.eqb_refl. discriminate.
Qed.

(** In exact arithmetic, on a rectangular [waferts], whether the
    routine completes or raises, the sum of the two timestreams of every
    pair is what it was before the call. *)
Lemma pair_sum_exact waferts pm bo I K pairlist spins :
  rect (snd (shape2 waferts)) waferts ->
  let waferts' :=
    fst (waferts_add_diffbeam waferts pm bo I K pairlist spins) in
  forall k t, (2 * k + 1 < length waferts)%nat ->
    nth t (get_row waferts' (2 * k)) 0 +
    nth t (get_row waferts' (2 * k + 1)) 0 =
    nth t (get_row waferts (2 * k)) 0 +
    nth t (get_row waferts (2 * k + 1)) 0.
Proof.
  intros Hr waferts' k t Hk. unfold waferts'.
  destruct (waferts_add_diffbeam waferts pm bo I K pairlist spins)
    as [w' [e|]] eqn:E.
  - pose proof (waferts_add_diffbeam_raises waferts pm bo I K pairlist
                  spins e) as H.
    rewrite E in H. simpl in *. now rewrite H.
  - simpl. eapply pair_sum_completed; eauto.
Qed.

(** *** Completion of the projector *)

Lemma take_total (row : list R) (io : list Z) :
  (forall p, In p io -> exists v, take1 row p = Ok v) ->
  exists vals, take row io = Ok vals.
Proof.
  induction io as [|p io IH]; intros H; simpl; eauto.
  destruct (H p (or_introl eq_refl)) as [v ->].
  destruct IH as [vals ->]; [intros q Hq; apply H; simpl; auto|].
  simpl; eauto.
Qed.

Lemma in_select_ok (i1d : list Z) (p : Z) :
  In p (select (map (fun p => negb (p =? -1)%Z) i1d) i1d) ->
  In p i1d /\ p <> (-1)%Z.
Proof.
  induction i1d as [|p0 i1d IH]; simpl; [tauto|].
  destruct (p0 =? -1)%Z eqn:E; simpl.
  - intros H; destruct (IH H); auto.
  - apply Z.eqb_neq in E. intros [->|H]; auto.
    destruct (IH H); auto.
Qed.

Lemma coeff_loop_total I io k okpointing coeffs :
  (forall c p, In c coeffs -> In p io ->
     exists v, take1 (nth c I []) p = Ok v) ->
  forall row, snd (coeff_loop I io k okpointing coeffs row) = None.
Proof.
  induction coeffs as [|c rest IH]; intros H row; simpl; auto.
  destruct (take_total (nth c I []) io) as [vals ->].
  { intros p Hp; apply (H c p); simpl; auto. }
  apply IH. intros c0 p H0 Hp; apply (H c0 p); simpl; auto.
Qed.

Lemma pix_body_total I Kpix i1d orientation row :
  (forall p, In p i1d -> pixel_ok I p) ->
  snd (pix_body I Kpix i1d orientation row) = None.
Proof.
  intros H. unfold pix_body. apply coeff_loop_total.
  intros c p Hc Hp.
  apply in_seq in Hc. apply in_select_ok in Hp. destruct Hp as [Hin Hne].
  destruct (H p Hin) as [|Hok]; [contradiction|].
  apply Hok. simpl in Hc. lia.
Qed.

Lemma pix_loop_total I pm bo K :
  (forall i1d p, In i1d pm -> In p i1d -> pixel_ok I p) ->
  forall ipixs out, snd (pix_loop I pm bo K ipixs out) = None.
Proof.
  intros H. induction ipixs as [|i0 rest IH]; intros out; simpl; auto.
  pose proof (pix_body_total I (nth i0 K zero_kernel) (nth i0 pm [])
                (get_row bo i0) (get_row out i0)) as Hb.
  destruct (pix_body _ _ _ _ _) as [row e]; simpl in Hb.
  rewrite Hb; auto.
  intros p Hp. destruct (nth_in_or_default i0 pm []) as [Hin|Hd].
  - apply (H _ p Hin Hp).
  - rewrite Hd in Hp; destruct Hp.
Qed.

(** The projector completes when the shapes agree and every pixel is the
    sentinel or an index of the maps. *)
Lemma diffbeam_map2tod_completes out I pm bo K :
  shape2 pm = shape2 out -> length K = length out ->
  length I = 6%nat -> shape2 bo = shape2 out ->
  (forall i1d p, In i1d pm -> In p i1d -> pixel_ok I p) ->
  snd (diffbeam_map2tod out I pm bo K) = None.
Proof.
  intros H1 H2 H3 H4 Hpix. unfold diffbeam_map2tod.
  rewrite (proj2 (shape_eqb_eq _ _) H1); simpl.
  rewrite (proj2 (Nat.eqb_eq _ _) H2); simpl.
  rewrite (proj2 (Nat.eqb_eq _ _) H3); simpl.
  rewrite (proj2 (shape_eqb_eq _ (length out, _)) H4); simpl.
  now apply pix_loop_total.
Qed.

(** The injection completes on an even number of timestreams when the
    projector does. *)
Lemma waferts_add_diffbeam_completes waferts pm bo I K pairlist spins :
  let diffbeamleak :=
    repeat (repeat 0 (snd (shape2 waferts))) (length waferts / 2) in
  Nat.even (length waferts) = true ->
  shape2 pm = shape2 diffbeamleak -> length K = (length waferts / 2)%nat ->
  length I = 6%nat -> shape2 bo = shape2 diffbeamleak ->
  (forall i1d p, In i1d pm -> In p i1d -> pixel_ok I p) ->
  snd (waferts_add_diffbeam waferts pm bo I K pairlist spins) = None.
Proof.
  intros leak0 Heven Hpm HK HI Hbo Hpix. unfold waferts_add_diffbeam.
  change (fst (shape2 waferts)) with (length waferts). fold leak0.
  set (K' := map (fun Ki => fixspin Ki spins) (map detector_frame K)).
  assert (Hl0 : length leak0 = (length waferts / 2)%nat)
    by apply repeat_length.
  assert (HK' : length K' = length leak0)
    by (unfold K'; rewrite !length_map; congruence).
  pose proof (diffbeam_map2tod_completes leak0 I pm bo K' Hpm HK' HI Hbo
                Hpix) as Hdone.
  destruct (diffbeam_map2tod_shape leak0 I pm bo K' (snd (shape2 waferts))
              (rect_repeat 0 _ _)) as [Hlen _].
  destruct (diffbeam_map2tod leak0 I pm bo K') as [leak e].
  simpl in Hdone, Hlen; subst e. rewrite Hl0 in Hlen.
  apply Nat.even_spec in Heven. destruct Heven as [m Hm].
  assert (Hhalf : (length waferts / 2 = m)%nat)
    by (rewrite Hm, Nat.mul_comm; apply Nat.div_mul; lia).
  assert (Hhalf' : ((length waferts + 1) / 2 = m)%nat).
  { rewrite Hm, (Nat.mul_comm 2 m), Nat.div_add_l by lia.
    change (1 / 2)%nat with 0%nat. lia. }
  assert (H1 : exists w1, slice2_iop Rplus 0 waferts leak = Ok w1 /\
                          length w1 = length waferts).
  { unfold slice2_iop.
    rewrite Nat.sub_0_r, Hhalf', Hlen, Hhalf, Nat.eqb_refl.
    eexists; split; [reflexivity | apply length_imap]. }
  destruct H1 as [w1 [-> Hw1]].
  unfold slice2_iop.
  rewrite Hw1, Nat.add_sub, Hhalf, Hlen, Hhalf, Nat.eqb_refl.
  reflexivity.
Qed.

(** ** float64 arithmetic *)

Lemma f64_same_refl x : f64_same x x.
Proof. now left. Qed.

Lemma f64_same_sym x y : f64_same x y -> f64_same y x.
Proof. intros [H|[H1 H2]]; [left; auto | right; auto]. Qed.

Lemma f64_same_trans x y z : f64_same x y -> f64_same y z -> f64_same x z.
Proof.
  intros [H1|[H1 H1']] [H2|[H2 H2']].
  - left; congruence.
  - right; split; auto. destruct H2 as [s Hs]. exists s; congruence.
  - right; split; auto. destruct H1' as [s Hs]. exists s; congruence.
  - right; auto.
Qed.

Lemma f64_zero_literal : f64_zero 0%float.
Proof. now exists false. Qed.

(** Adding a zero, or subtracting one, keeps the value. *)
Lemma f64_add_zero_l z x : f64_zero z -> f64_same (z + x)%float x.
Proof.
  intros [s Hz]. unfold f64_same, f64_zero.
  rewrite FloatAxioms.add_spec, Hz. unfold SF64add.
  destruct (Prim2SF x) as [s'| | |s' m e] eqn:Ex; simpl; auto.
  right. split; [|now exists s'].
  destruct s, s'; eauto.
Qed.

Lemma f64_add_zero_r z x : f64_zero z -> f64_same (x + z)%float x.
Proof.
  intros [s Hz]. unfold f64_same, f64_zero.
  rewrite FloatAxioms.add_spec, Hz. unfold SF64add.
  destruct (Prim2SF x) as [s'| | |s' m e] eqn:Ex; simpl; auto.
  right. split; [|now exists s'].
  destruct s, s'; eauto.
Qed.

Lemma f64_sub_zero_r z x : f64_zero z -> f64_same (x - z)%float x.
Proof.
  intros [s Hz]. unfold f64_same, f64_zero.
  rewrite FloatAxioms.sub_spec, Hz. unfold SF64sub.
  destruct (Prim2SF x) as [s'| | |s' m e] eqn:Ex; simpl; auto.
  right. split; [|now exists s'].
  destruct s, s'; eauto.
Qed.

Lemma f64_zero_add a b : f64_zero a -> f64_zero b -> f64_zero (a + b)%float.
Proof.
  intros [s Ha] [s' Hb]. unfold f64_zero.
  rewrite FloatAxioms.add_spec, Ha, Hb. destruct s, s'; simpl; eauto.
Qed.

Lemma f64_same_add_zero_r a d z :
  f64_same a d -> f64_zero z -> f64_same (a + z)%float d.
Proof.
  intros H Hz. eapply f64_same_trans; [|exact H].
  now apply f64_add_zero_r.
Qed.

Lemma f64_same_add_zero_l a d z :
  f64_same a d -> f64_zero z -> f64_same (z + a)%float d.
Proof.
  intros H Hz. eapply f64_same_trans; [|exact H].
  now apply f64_add_zero_l.
Qed.

Lemma f64_same_sub_zero_r a d z :
  f64_same a d -> f64_zero z -> f64_same (a - z)%float d.
Proof.
  intros H Hz. eapply f64_same_trans; [|exact H].
  now apply f64_sub_zero_r.
Qed.

(** Values that are the same compare equal, unless they are NaN. *)
Lemma f64_same_eqb x y :
  f64_same x y -> is_nan y = false -> (x =? y)%float = true.
Proof.
  intros [H|[[s Hx] [s' Hy]]] Hn.
  - unfold is_nan in Hn. apply negb_false_iff in Hn.
    rewrite FloatAxioms.eqb_spec in *. now rewrite H.
  - rewrite FloatAxioms.eqb_spec, Hx, Hy. reflexivity.
Qed.

Lemma f64_finite_cases x :
  is_finite x = true ->
  (exists s, Prim2SF x = S754_zero s) \/
  (exists s m e, Prim2SF x = S754_finite s m e).
Proof.
  unfold is_finite, is_nan, is_infinity. intros H.
  apply negb_true_iff, orb_false_iff in H. destruct H as [H1 H2].
  rewrite FloatAxioms.eqb_spec, FloatAxioms.abs_spec in H2.
  rewrite FloatAxioms.eqb_spec in H1.
  destruct (Prim2SF x) as [s|s| |s m e]; eauto; try discriminate.
Qed.

Lemma f64_finite_not_nan x : is_finite x = true -> is_nan x = false.
Proof.
  unfold is_finite. intros H.
  apply negb_true_iff, orb_false_iff in H. tauto.
Qed.

(** A zero times a finite number is a zero. *)
Lemma f64_mul_zero_l z x :
  f64_zero z -> is_finite x = true -> f64_zero (z * x)%float.
Proof.
  intros [s Hz] Hx. unfold f64_zero. rewrite FloatAxioms.mul_spec, Hz.
  destruct (f64_finite_cases x Hx) as [[s' ->]|[s' [m [e ->]]]];
    simpl; eauto.
Qed.

(** The mantissa of 1.0 is [2^52]. *)
Lemma digits2_pos_shift52 (m : positive) :
  Zpos (digits2_pos (Pos.mul 4503599627370496 m)) =
  (Zpos (digits2_pos m) + 52)%Z.
Proof.
  cbn [Pos.mul digits2_pos]. rewrite !Pos2Z.inj_succ. lia.
Qed.

(** One times a number is that number. *)
Lemma f64_mul_one_l x : (1 * x)%float = x.
Proof.
  apply Prim2SF_inj. rewrite FloatAxioms.mul_spec.
  pose proof (Prim2SF_valid x) as Hv.
  change (Prim2SF 1) with (S754_finite false 4503599627370496 (-52)).
  destruct (Prim2SF x) as [s|s| |s m e]; try reflexivity.
  unfold SF64mul, SFmul. cbn [xorb].
  unfold valid_binary, bounded, canonical_mantissa in Hv.
  apply andb_true_iff in Hv. destruct Hv as [Hc Hb].
  apply Z.eqb_eq in Hc.
  unfold binary_round_aux, shr_fexp.
  cbn [Zdigits2]. rewrite digits2_pos_shift52.
  match goal with
  | |- context [fexp prec emax ?a] =>
      replace (fexp prec emax a) with e by (rewrite <- Hc at 1; f_equal; lia)
  end.
  match goal with
  | |- context [shr ?r ?x (e - ?x)] =>
      replace (e - x)%Z with 52%Z by lia
  end.
  cbn [shr shr_record_of_loc Pos.mul].
  cbn [iter_pos shr_1 orb].
  cbn [shr_m shr_r shr_s loc_of_shr_record round_nearest_even Zdigits2].
  match goal with
  | |- context [shr ?r ?x _] => replace x with e by lia
  end.
  match goal with
  | |- context [fexp prec emax ?a] =>
      replace (fexp prec emax a) with e by (rewrite <- Hc at 1; f_equal; lia)
  end.
  rewrite Z.sub_diag. cbn [shr shr_record_of_loc shr_m].
  now rewrite Hb.
Qed.

Lemma f64_same_eq x y : Prim2SF x = Prim2SF y -> x = y.
Proof. apply Prim2SF_inj. Qed.

(** A sum reads its terms up to the sign of a zero. *)
Lemma f64_same_add a a' b b' :
  f64_same a a' -> f64_same b b' -> f64_same (a + b)%float (a' + b')%float.
Proof.
  intros [Ha|[Ha Ha']] [Hb|[Hb Hb']].
  - apply f64_same_eq in Ha, Hb. subst. apply f64_same_refl.
  - apply f64_same_eq in Ha. subst a'.
    eapply f64_same_trans; [now apply f64_add_zero_r|].
    apply f64_same_sym. now apply f64_add_zero_r.
  - apply f64_same_eq in Hb. subst b'.
    eapply f64_same_trans; [now apply f64_add_zero_l|].
    apply f64_same_sym. now apply f64_add_zero_l.
  - right. split; now apply f64_zero_add.
Qed.

(** A value that is not a zero is kept as it is. *)
Lemma f64_same_nonzero x y : f64_same x y -> ~ f64_zero y -> x = y.
Proof.
  intros [H|[_ H]] Hy; [now apply f64_same_eq | contradiction].
Qed.

Lemma f64_zero_finite z : f64_zero z -> is_finite z = true.
Proof.
  intros [s Hs]. unfold is_finite, is_nan, is_infinity.
  rewrite !FloatAxioms.eqb_spec, FloatAxioms.abs_spec, Hs. reflexivity.
Qed.

(** A finite number times a zero is a zero. *)
Lemma f64_mul_zero_r x z :
  is_finite x = true -> f64_zero z -> f64_zero (x * z)%float.
Proof.
  intros Hx [s Hz]. unfold f64_zero. rewrite FloatAxioms.mul_spec, Hz.
  destruct (f64_finite_cases x Hx) as [[s' ->]|[s' [m [e ->]]]];
    simpl; eauto.
Qed.

(** Kernels that hold the same values compare equal, coefficient by
    coefficient, unless one of them is NaN. *)
Lemma f64_ksame_keqb (K K' : F64.kernel) :
  F64.ksame K K' -> F64.kfinite K' = true -> F64.keqb K K' = true.
Proof.
  unfold F64.ksame, F64.kfinite, F64.keqb. rewrite !andb_true_iff.
  intros [H0 [H1 [H2 [H3 [H4 H5]]]]] [[[[[F0 F1] F2] F3] F4] F5].
  repeat split; apply f64_same_eqb; auto using f64_finite_not_nan.
Qed.

(** ** Spin selector on float64 *)

Lemma f64_zero_plus_zero : f64_zero (0.0 + 0.0)%float.
Proof. now exists false. Qed.

(** The coefficient of a spin-selected kernel that the spin does not
    feed. *)
Ltac f64_drop_zeros :=
  repeat first
    [ apply f64_same_refl
    | apply f64_same_add_zero_r;
        [|first [exact f64_zero_literal | exact f64_zero_plus_zero]]
    | apply f64_same_add_zero_l;
        [|first [exact f64_zero_literal | exact f64_zero_plus_zero]] ].

(** The sum of the three spin-selected kernels on float64: the first
    four coefficients are those of [K]; [d20] and [d02] come back as the
    sum and the difference of the two halves [x] and [y]. *)
Lemma f64_fixspin_spin_sum (K : F64.kernel) :
  let x := ((F64.d20 K + F64.d02 K) * 0.5)%float in
  let y := ((F64.d20 K - F64.d02 K) * 0.5)%float in
  let K' := F64.Kernel (F64.d00 K) (F64.d10 K) (F64.d01 K) (F64.d11 K)
              (x + y) (x + - y) in
  F64.ksame
    (F64.kadd (F64.kadd (F64.fixspin K "0") (F64.fixspin K "1"))
       (F64.fixspin K "2")) K' /\
  F64.ksame (F64.fixspin K "012") K'.
Proof.
  destruct K as [a b c d e f]. unfold F64.ksame, F64.fixspin, F64.kadd.
  cbn. repeat split; try solve [f64_drop_zeros].
  - apply f64_same_add; f64_drop_zeros.
  - apply f64_same_add; f64_drop_zeros.
  - apply f64_same_add; f64_drop_zeros.
  - apply f64_same_add; f64_drop_zeros.
Qed.

(** ** Kernel rotator on float64 *)

Lemma f64_kfinite_fields (K : F64.kernel) :
  F64.kfinite K = true ->
  is_finite (F64.d00 K) = true /\ is_finite (F64.d10 K) = true /\
  is_finite (F64.d01 K) = true /\ is_finite (F64.d11 K) = true /\
  is_finite (F64.d20 K) = true /\ is_finite (F64.d02 K) = true.
Proof.
  unfold F64.kfinite. rewrite !andb_true_iff. tauto.
Qed.

(** A rotation whose cosine is 1 and whose sine is a zero returns the
    kernel, the sign of a zero apart, when no product with the sine is
    NaN: finite coefficients and a finite [d20 - d02]. *)
Lemma f64_rotate_deriv_null (np_cos np_sin : float -> float)
  (K : F64.kernel) (theta : float) :
  np_cos theta = 1%float -> f64_zero (np_sin theta) ->
  F64.kfinite K = true ->
  is_finite (F64.d20 K - F64.d02 K) = true ->
  F64.ksame (F64.rotate_deriv np_cos np_sin K theta) K.
Proof.
  intros Hc Hs HK Hd.
  destruct (f64_kfinite_fields K HK) as [_ [Hb [Hc' [Hd' [He Hf]]]]].
  destruct K as [a b c d e f]. cbn [F64.d00 F64.d10 F64.d01 F64.d11
    F64.d20 F64.d02] in *.
  unfold F64.ksame, F64.rotate_deriv.
  cbn [F64.d00 F64.d10 F64.d01 F64.d11 F64.d20 F64.d02].
  rewrite Hc. set (s := np_sin theta) in *.
  assert (Hsf : is_finite s = true) by now apply f64_zero_finite.
  assert (Hss : f64_zero (s * s)%float) by now apply f64_mul_zero_l.
  assert (H2s : f64_zero (2.0 * 1 * s)%float)
    by (apply f64_mul_zero_r; auto).
  rewrite !f64_mul_one_l.
  repeat split.
  - apply f64_same_refl.
  - apply f64_sub_zero_r. now apply f64_mul_zero_l.
  - apply f64_add_zero_l. now apply f64_mul_zero_l.
  - assert (H1 : (1 - s * s)%float = 1%float).
    { apply f64_same_nonzero; [now apply f64_sub_zero_r|].
      intros [z Hz]. discriminate. }
    rewrite H1, f64_mul_one_l.
    apply f64_add_zero_r. now apply f64_mul_zero_l.
  - apply f64_same_add_zero_r; [|now apply f64_mul_zero_l].
    apply f64_sub_zero_r. now apply f64_mul_zero_l.
  - apply f64_add_zero_l. apply f64_zero_add; now apply f64_mul_zero_l.
Qed.

(** The round trip by the angle 1.0 on [(1, 2, 3, 4, 5, 6)], with the
    cosine and the sine of 1.0 rounded to the nearest float64. *)
Lemma f64_round_trip_at_1 (np_cos np_sin : float -> float) :
  np_cos 1%float = 0.5403023058681398%float ->
  np_cos (-1)%float = 0.5403023058681398%float ->
  np_sin 1%float = 0.8414709848078965%float ->
  np_sin (-1)%float = (-0.8414709848078965)%float ->
  F64.rotate_deriv np_cos np_sin
    (F64.rotate_deriv np_cos np_sin (F64.Kernel 1 2 3 4 5 6) 1) (- 1) =
  F64.Kernel 1 2 3 4.000000000000001 5.000000000000001 6.000000000000001.
Proof.
  intros Hc Hc' Hs Hs'. unfold F64.rotate_deriv.
  change (- 1)%float with (-1)%float.
  rewrite Hc, Hc', Hs, Hs'. vm_compute. reflexivity.
Qed.

(** ** Leakage projector and pair injection on float64 *)

Lemma f64_length_set_row (a : F64.tod) (i : nat) (r : list float) :
  length (F64.set_row a i r) = length a.
Proof.
  revert i; induction a as [|x t IH]; intros [|j]; simpl; auto.
Qed.

Lemma f64_length_masked_iadd (a : list float) (mask : list bool)
  (vals : list float) :
  length (F64.masked_iadd a mask vals) = length a.
Proof.
  revert mask vals.
  induction a as [|x a IH]; intros [|[|] mask] vals; simpl; auto.
  destruct vals; simpl; auto.
Qed.

Lemma f64_length_coeff_loop I io k okpointing coeffs :
  forall row,
    length (fst (F64.coeff_loop I io k okpointing coeffs row)) =
    length row.
Proof.
  induction coeffs as [|c rest IH]; intros row; simpl; auto.
  destruct (F64.take _ _); simpl; auto.
  rewrite IH. apply f64_length_masked_iadd.
Qed.

Section Float64Projector.

Variables np_cos np_sin : float -> float.

Lemma f64_length_pix_body I Kpix i1d orientation row :
  length (fst (F64.pix_body np_cos np_sin I Kpix i1d orientation row)) =
  length row.
Proof. unfold F64.pix_body. apply f64_length_coeff_loop. Qed.

(** The projector keeps the shape of [out], whether it completes or
    not. *)
Lemma f64_pix_loop_shape I pm bo K (nt : nat) :
  forall ipixs out,
    rect nt out ->
    length (fst (F64.pix_loop np_cos np_sin I pm bo K ipixs out)) =
      length out /\
    rect nt (fst (F64.pix_loop np_cos np_sin I pm bo K ipixs out)).
Proof.
  assert (Hset : forall (out : F64.tod) i row,
            rect nt out -> (i < length out)%nat -> length row = nt ->
            rect nt (F64.set_row out i row)).
  { induction out as [|r out IHo]; intros [|i] row Hr Hi Hrow;
      simpl in *; try lia; inversion Hr; subst; constructor; auto.
    apply IHo; auto; lia. }
  assert (Hset' : forall (out : F64.tod) i row,
            rect nt out -> (length out <= i)%nat ->
            F64.set_row out i row = out).
  { induction out as [|r out IHo]; intros [|i] row Hr Hi;
      simpl in *; try lia; auto.
    inversion Hr; subst. f_equal. apply IHo; auto; lia. }
  induction ipixs as [|i0 rest IH]; intros out Hr; simpl; auto.
  pose proof (f64_length_pix_body I (nth i0 K F64.zero_kernel)
                (nth i0 pm []) (F64.get_row bo i0) (F64.get_row out i0))
    as Hlen.
  destruct (F64.pix_body _ _ _ _ _ _ _) as [row [e|]]; simpl in *.
  - rewrite f64_length_set_row. split; auto.
    destruct (Nat.lt_ge_cases i0 (length out)).
    + apply Hset; auto. rewrite Hlen. unfold F64.get_row.
      now apply rect_nth.
    + now rewrite Hset'.
  - assert (Hr1 : rect nt (F64.set_row out i0 row)).
    { destruct (Nat.lt_ge_cases i0 (length out)).
      + apply Hset; auto. rewrite Hlen. unfold F64.get_row.
        now apply rect_nth.
      + now rewrite Hset'. }
    destruct (IH _ Hr1) as [H1 H2].
    rewrite f64_length_set_row in H1. auto.
Qed.

Lemma f64_diffbeam_map2tod_shape out I pm bo K (nt : nat) :
  rect nt out ->
  length (fst (F64.diffbeam_map2tod np_cos np_sin out I pm bo K)) =
    length out /\
  rect nt (fst (F64.diffbeam_map2tod np_cos np_sin out I pm bo K)).
Proof.
  intros Hr. unfold F64.diffbeam_map2tod.
  repeat (match goal with
          | |- context [if ?c then _ else _] => destruct c
          end; simpl; auto).
  now apply f64_pix_loop_shape.
Qed.

End Float64Projector.

Lemma f64_get_row_imap (f : nat -> list float -> list float)
  (w : F64.tod) :
  forall i0 j, (j < length w)%nat ->
    F64.get_row (imap f i0 w) j = f (i0 + j)%nat (F64.get_row w j).
Proof.
  unfold F64.get_row.
  induction w as [|r w IH]; intros i0 [|j] Hj; simpl in *; try lia.
  - now rewrite Nat.add_0_r.
  - rewrite IH by lia. f_equal. lia.
Qed.

(** A row of a slice update. *)
Lemma f64_slice2_iop_row op start w leak w1 :
  F64.slice2_iop op start w leak = Ok w1 ->
  length w1 = length w /\
  (((length w + 1 - start) / 2)%nat <> length leak ->
   length leak = 1%nat) /\
  forall i, (i < length w)%nat ->
    F64.get_row w1 i =
    if in_slice start i
    then map2 op (F64.get_row w i)
           (F64.get_row leak
              (if ((length w + 1 - start) / 2 =? length leak)%nat
               then ((i - start) / 2)%nat else 0%nat))
    else F64.get_row w i.
Proof.
  unfold F64.slice2_iop.
  destruct ((length w + 1 - start) / 2 =? length leak)%nat eqn:E.
  - intros H; inversion H; subst. rewrite length_imap.
    apply Nat.eqb_eq in E. split; auto. split; [congruence|].
    intros i Hi. now rewrite f64_get_row_imap.
  - destruct (length leak =? 1)%nat eqn:E1; try discriminate.
    intros H; inversion H; subst. rewrite length_imap.
    apply Nat.eqb_eq in E1. split; auto. split; auto.
    intros i Hi. now rewrite f64_get_row_imap.
Qed.

(** A sample of a row updated with a row of the same length. *)
Lemma f64_nth_map2_add (a l : list float) (t : nat) :
  length a = length l ->
  nth t (map2 PrimFloat.add a l) 0%float =
  (nth t a 0 + nth t l 0)%float.
Proof.
  revert l t.
  induction a as [|x a IH]; intros [|z l] [|t] Ha;
    simpl in *; try discriminate; auto.
Qed.

Lemma f64_nth_map2_sub (a l : list float) (t : nat) :
  length a = length l ->
  nth t (map2 PrimFloat.sub a l) 0%float =
  (nth t a 0 - nth t l 0)%float.
Proof.
  revert l t.
  induction a as [|x a IH]; intros [|z l] [|t] Ha;
    simpl in *; try discriminate; auto.
Qed.

Lemma f64_rect_repeat (x : float) (nt n : nat) :
  rect nt (repeat (repeat x nt) n).
Proof.
  unfold rect. apply Forall_forall. intros r Hin.
  apply repeat_spec in Hin; subst. apply repeat_length.
Qed.

Section Float64Pairs.

Variables np_cos np_sin : float -> float.

(** The two members of a pair after a completed call: the leakage of
    the pair, as the projector computed it, has been added to the
    even-numbered member and subtracted from the odd-numbered one. *)
Lemma f64_pair_completed waferts pm bo I K pairlist spins waferts' :
  rect (snd (shape2 waferts)) waferts ->
  F64.waferts_add_diffbeam np_cos np_sin waferts pm bo I K pairlist
    spins = (waferts', None) ->
  exists leak,
    F64.diffbeam_map2tod np_cos np_sin
      (repeat (repeat 0%float (snd (shape2 waferts)))
         (length waferts / 2))
      I pm bo
      (map (fun Ki => F64.fixspin Ki spins) (map F64.detector_frame K)) =
      (leak, None) /\
    forall k t, (2 * k + 1 < length waferts)%nat ->
      nth t (F64.get_row waferts' (2 * k)) 0%float =
        (nth t (F64.get_row waferts (2 * k)) 0 +
         nth t (F64.get_row leak k) 0)%float /\
      nth t (F64.get_row waferts' (2 * k + 1)) 0%float =
        (nth t (F64.get_row waferts (2 * k + 1)) 0 -
         nth t (F64.get_row leak k) 0)%float.
Proof.
  intros Hr Hrun. unfold F64.waferts_add_diffbeam in Hrun.
  change (fst (shape2 waferts)) with (length waferts) in Hrun.
  set (nt := snd (shape2 waferts)) in *.
  set (leak0 := repeat (repeat 0%float nt) (length waferts / 2)) in *.
  set (K' := map (fun Ki => F64.fixspin Ki spins)
               (map F64.detector_frame K)) in *.
  destruct (f64_diffbeam_map2tod_shape np_cos np_sin leak0 I pm bo K' nt
              (f64_rect_repeat 0 nt _)) as [Hlen Hrl].
  destruct (F64.diffbeam_map2tod np_cos np_sin leak0 I pm bo K')
    as [leak [e|]]; try discriminate.
  exists leak. split; [reflexivity|]. intros k t Hk.
  cbn [fst] in Hlen, Hrl. unfold leak0 in Hlen.
  rewrite repeat_length in Hlen.
  destruct (F64.slice2_iop PrimFloat.add 0 waferts leak) as [w1|] eqn:E1;
    try discriminate.
  destruct (F64.slice2_iop PrimFloat.sub 1 w1 leak) as [w2|] eqn:E2;
    try discriminate.
  inversion Hrun; subst w2; clear Hrun.
  destruct (f64_slice2_iop_row _ _ _ _ _ E1) as [Hl1 [Hb1 Hrow1]].
  destruct (f64_slice2_iop_row _ _ _ _ _ E2) as [Hl2 [_ Hrow2]].
  rewrite Hl1 in *.
  assert (Hcount : ((length waferts + 1 - 1) / 2 =? length leak)%nat = true).
  { apply Nat.eqb_eq. rewrite Hlen. f_equal. lia. }
  rewrite Hcount in Hrow2.
  rewrite (Hrow2 (2 * k)%nat), (Hrow2 (2 * k + 1)%nat) by lia.
  rewrite (Hrow1 (2 * k)%nat), (Hrow1 (2 * k + 1)%nat) by lia.
  rewrite in_slice_0_even, in_slice_0_odd, in_slice_1_even, in_slice_1_odd.
  replace (2 * k + 1 - 1)%nat with (2 * k)%nat by lia.
  rewrite !Nat.sub_0_r. rewrite Nat.sub_0_r in Hb1.
  assert (Hdiv : (2 * k / 2 = k)%nat)
    by (rewrite Nat.mul_comm; apply Nat.div_mul; lia).
  rewrite Hdiv.
  assert (Hsel : (if ((length waferts + 1) / 2 =? length leak)%nat
                  then k else 0%nat) = k).
  { destruct ((length waferts + 1) / 2 =? length leak)%nat eqn:E;
      auto.
    apply Nat.eqb_neq in E. specialize (Hb1 E).
    rewrite Hb1 in Hlen.
    assert (length waferts < 4)%nat.
    { destruct (Nat.lt_ge_cases (length waferts) 4) as [|Hge]; auto.
      exfalso.
      assert (4 / 2 <= length waferts / 2)%nat
        by (apply Nat.Div0.div_le_mono; lia).
      change (4 / 2)%nat with 2%nat in *. lia. }
    lia. }
  rewrite Hsel.
  assert (Hkl : (k < length leak)%nat).
  { rewrite Hlen.
    apply (Nat.div_le_lower_bound (length waferts) 2 (S k)); lia. }
  split.
  - apply f64_nth_map2_add. unfold F64.get_row.
    rewrite (rect_nth nt waferts) by (auto; lia).
    now rewrite (rect_nth nt leak).
  - apply f64_nth_map2_sub. unfold F64.get_row.
    rewrite (rect_nth nt waferts) by (auto; lia).
    now rewrite (rect_nth nt leak).
Qed.

(** A call that raises leaves [waferts] as it was: the second slice
    update cannot fail once the first has passed. *)
Lemma f64_waferts_add_diffbeam_raises waferts pm bo I K pairlist spins e :
  snd (F64.waferts_add_diffbeam np_cos np_sin waferts pm bo I K pairlist
         spins) = Some e ->
  fst (F64.waferts_add_diffbeam np_cos np_sin waferts pm bo I K pairlist
         spins) = waferts.
Proof.
  unfold F64.waferts_add_diffbeam.
  set (nt := snd (shape2 waferts)).
  set (leak0 := repeat (repeat 0%float nt) (fst (shape2 waferts) / 2)).
  set (K' := map (fun Ki => F64.fixspin Ki spins)
               (map F64.detector_frame K)).
  destruct (f64_diffbeam_map2tod_shape np_cos np_sin leak0 I pm bo K' nt
              (f64_rect_repeat 0 nt _)) as [Hlen _].
  destruct (F64.diffbeam_map2tod np_cos np_sin leak0 I pm bo K')
    as [leak [e0|]]; auto.
  cbn [fst] in Hlen. unfold leak0 in Hlen.
  rewrite repeat_length in Hlen.
  change (fst (shape2 waferts)) with (length waferts) in Hlen.
  destruct (F64.slice2_iop PrimFloat.add 0 waferts leak) as [w1|] eqn:E1;
    auto.
  destruct (f64_slice2_iop_row _ _ _ _ _ E1) as [Hl1 _].
  unfold F64.slice2_iop.
  rewrite Hl1, Nat.add_sub, Hlen, Nat.eqb_refl. discriminate.
Qed.

End Float64Pairs.

(** The call on the pair [(0.1, 0.2)] with a leakage of 0.7, for a
    library whose cosine and sine of -0.0 are 1 and -0.0. *)
Lemma f64_waferts_add_diffbeam_tenths (np_cos np_sin : float -> float) :
  np_cos (-0)%float = 1%float -> np_sin (-0)%float = (-0)%float ->
  F64.waferts_add_diffbeam np_cos np_sin [[0.1]; [0.2]]%float [[0%Z]]
    [[0%float]] [[0]; [0]; [0]; [0]; [0.7]; [0]]%float
    [F64.Kernel 0 0 0 0 1 1] [(0%nat, 1%nat)] "012" =
  ([[0.7999999999999999]; [-0.49999999999999994]]%float, None).
Proof.
  intros Hc Hs.
  unfold F64.waferts_add_diffbeam, F64.diffbeam_map2tod, F64.pix_loop,
    F64.pix_body, F64.rotate_deriv_array, F64.rotate_deriv.
  cbn [map select repeat shape2 fst snd length Nat.div Nat.divmod
       seq negb Z.eqb].
  simpl. vm_compute in Hc, Hs.
  rewrite !Hc, !Hs. vm_compute. reflexivity.
Qed.

(** ** The algebraic identities, in float64 and in exact arithmetic *)

(** C5, the claim refuted. On float64 the three spin-selected kernels
    of [(1, 2, 3, 4, 0.1, 0.3)] add up to a kernel whose [d20] is
    0.10000000000000002, and so does the selection of the three spins
    at once: rounding [(d20 + d02) * 0.5 + (d20 - d02) * 0.5] does not
    give [d20] back. *)
Lemma fixspin_spin_sum_inexact :
  let K := F64.Kernel 1 2 3 4 0.1 0.3 in
  let K' := F64.Kernel 1 2 3 4 0.10000000000000002 0.3 in
  F64.kadd (F64.kadd (F64.fixspin K "0") (F64.fixspin K "1"))
    (F64.fixspin K "2") = K' /\
  F64.fixspin K "012" = K' /\
  F64.keqb K' K = false.
Proof. vm_compute. repeat split. Qed.

(** The same on [(0, 0, 0, 0, 1e16, 1)]: the coefficient [d02 = 1] is
    lost altogether. *)
Example f64_fixspin_absorbs_d02 :
  F64.fixspin (F64.Kernel 0 0 0 0 1e16 1) "012" =
  F64.Kernel 0 0 0 0 1e16 0.
Proof. vm_compute. reflexivity. Qed.

(** C5, as the code has it. On float64, the sum of the three
    spin-selected kernels, and the selection of the three spins at
    once, have the coefficients [d00], [d10], [d01] and [d11] of [K]
    (the sign of a zero apart), while [d20] and [d02] come back as
    [x + y] and [x + - y] for the rounded halves
    [x = (d20 + d02) * 0.5] and [y = (d20 - d02) * 0.5]. In exact
    arithmetic both are [K]. *)
Theorem fixspin_spin_additivity :
  (forall K : F64.kernel,
     let x := ((F64.d20 K + F64.d02 K) * 0.5)%float in
     let y := ((F64.d20 K - F64.d02 K) * 0.5)%float in
     let K' := F64.Kernel (F64.d00 K) (F64.d10 K) (F64.d01 K)
                 (F64.d11 K) (x + y) (x + - y) in
     F64.ksame
       (F64.kadd (F64.kadd (F64.fixspin K "0") (F64.fixspin K "1"))
          (F64.fixspin K "2")) K' /\
     F64.ksame (F64.fixspin K "012") K') /\
  (forall K : kernel,
     kadd (kadd (fixspin K "0") (fixspin K "1")) (fixspin K "2") = K /\
     fixspin K "012" = K).
Proof.
  split.
  - exact f64_fixspin_spin_sum.
  - exact spin_sum_exact.
Qed.

(** C6, the claim refuted. With the cosine and the sine of 1.0 rounded
    to the nearest float64, the rotation of [(1, 2, 3, 4, 5, 6)] by 1.0
    and then by -1.0 returns
    [(1, 2, 3, 4.000000000000001, 5.000000000000001,
    6.000000000000001)], which does not compare equal to the kernel. *)
Lemma rotate_deriv_round_trip_inexact :
  ~ (forall np_cos np_sin : float -> float,
       np_cos 1%float = 0.5403023058681398%float ->
       np_cos (-1)%float = 0.5403023058681398%float ->
       np_sin 1%float = 0.8414709848078965%float ->
       np_sin (-1)%float = (-0.8414709848078965)%float ->
       F64.keqb
         (F64.rotate_deriv np_cos np_sin
            (F64.rotate_deriv np_cos np_sin (F64.Kernel 1 2 3 4 5 6) 1)
            (- 1))
         (F64.Kernel 1 2 3 4 5 6) = true).
Proof.
  intros H.
  specialize (H (fun _ => 0.5403023058681398%float)
                (fun t => if (t <? 0)%float
                          then (-0.8414709848078965)%float
                          else 0.8414709848078965%float)
                eq_refl eq_refl eq_refl eq_refl).
  vm_compute in H. discriminate.
Qed.

(** C6, as the code has it. On float64, a rotation by an angle whose
    cosine is 1 and whose sine is a zero (the angle 0) returns a kernel
    of finite coefficients with a finite [d20 - d02], the sign of a
    zero apart: the result compares equal to the kernel. In exact
    arithmetic a rotation by 0 returns the kernel, and so does a
    rotation by [theta] followed by one by [- theta]. *)
Theorem rotate_deriv_round_trip :
  (forall (np_cos np_sin : float -> float) (K : F64.kernel)
          (theta : float),
     np_cos theta = 1%float -> f64_zero (np_sin theta) ->
     F64.kfinite K = true ->
     is_finite (F64.d20 K - F64.d02 K) = true ->
     F64.ksame (F64.rotate_deriv np_cos np_sin K theta) K /\
     F64.keqb (F64.rotate_deriv np_cos np_sin K theta) K = true) /\
  (forall K : kernel,
     rotate_deriv K 0 = K /\
     forall theta, rotate_deriv (rotate_deriv K theta) (- theta) = K).
Proof.
  split.
  - intros np_cos np_sin K theta Hc Hs HK Hd.
    assert (H : F64.ksame (F64.rotate_deriv np_cos np_sin K theta) K)
      by now apply f64_rotate_deriv_null.
    split; [exact H | now apply f64_ksame_keqb].
  - exact round_trip_exact.
Qed.

(** C10, the claim refuted. The pair [(0.1, 0.2)] with a leakage of 0.7
    (a library whose cosine and sine of -0.0 are 1 and -0.0) ends as
    [(0.7999999999999999, -0.49999999999999994)]: the sum of the pair
    is 0.3 after the call and 0.30000000000000004 before it. *)
Lemma waferts_add_diffbeam_pair_sum_inexact :
  ~ (forall np_cos np_sin : float -> float,
       np_cos (- 0)%float = 1%float ->
       np_sin (- 0)%float = (- 0)%float ->
       let waferts := [[0.1]; [0.2]]%float in
       let waferts' :=
         fst (F64.waferts_add_diffbeam np_cos np_sin waferts [[0%Z]]
                [[0%float]] [[0]; [0]; [0]; [0]; [0.7]; [0]]%float
                [F64.Kernel 0 0 0 0 1 1] [(0%nat, 1%nat)] "012") in
       (nth 0 (F64.get_row waferts' 0) 0 +
        nth 0 (F64.get_row waferts' 1) 0 =?
        nth 0 (F64.get_row waferts 0) 0 +
        nth 0 (F64.get_row waferts 1) 0)%float = true).
Proof.
  intros H.
  specialize (H (fun _ => 1%float) (fun t => t) eq_refl eq_refl).
  cbv zeta in H.
  rewrite (f64_waferts_add_diffbeam_tenths (fun _ => 1%float)
             (fun t => t) eq_refl eq_refl) in H.
  vm_compute in H. discriminate.
Qed.

(** C10, as the code has it. On a rectangular [waferts] of float64: a
    call that raises leaves [waferts] as it was; a call that completes
    has added the leakage of every pair, as the projector computed it,
    to the even-numbered member of the pair and subtracted the same
    value from the odd-numbered one. In exact arithmetic the sum of the
    two timestreams of every pair is therefore what it was before the
    call. *)
Theorem waferts_add_diffbeam_pair_sum :
  (forall (np_cos np_sin : float -> float) waferts pm bo I K pairlist
          spins,
     rect (snd (shape2 waferts)) waferts ->
     let r := F64.waferts_add_diffbeam np_cos np_sin waferts pm bo I K
                pairlist spins in
     (forall e, snd r = Some e -> fst r = waferts) /\
     (snd r = None ->
      exists leak,
        F64.diffbeam_map2tod np_cos np_sin
          (repeat (repeat 0%float (snd (shape2 waferts)))
             (length waferts / 2))
          I pm bo
          (map (fun Ki => F64.fixspin Ki spins)
             (map F64.detector_frame K)) = (leak, None) /\
        forall k t, (2 * k + 1 < length waferts)%nat ->
          nth t (F64.get_row (fst r) (2 * k)) 0%float =
            (nth t (F64.get_row waferts (2 * k)) 0 +
             nth t (F64.get_row leak k) 0)%float /\
          nth t (F64.get_row (fst r) (2 * k + 1)) 0%float =
            (nth t (F64.get_row waferts (2 * k + 1)) 0 -
             nth t (F64.get_row leak k) 0)%float)) /\
  (forall waferts pm bo I K pairlist spins,
     rect (snd (shape2 waferts)) waferts ->
     let waferts' :=
       fst (waferts_add_diffbeam waferts pm bo I K pairlist spins) in
     forall k t, (2 * k + 1 < length waferts)%nat ->
       nth t (get_row waferts' (2 * k)) 0 +
       nth t (get_row waferts' (2 * k + 1)) 0 =
       nth t (get_row waferts (2 * k)) 0 +
       nth t (get_row waferts (2 * k + 1)) 0).
Proof.
  split.
  - intros np_cos np_sin waferts pm bo I K pairlist spins Hr r. split.
    + intros e He.
      now apply (f64_waferts_add_diffbeam_raises np_cos np_sin waferts
                   pm bo I K pairlist spins e).
    + intros Hdone.
      apply (f64_pair_completed np_cos np_sin waferts pm bo I K pairlist
               spins (fst r) Hr).
      unfold r in *.
      destruct (F64.waferts_add_diffbeam np_cos np_sin waferts pm bo I K
                  pairlist spins) as [w' e].
      simpl in *. now subst e.
  - exact pair_sum_exact.
Qed.

(** ** Shape and length mismatches *)

(** C3, the claim refuted. With one detector and two SQUID ids the
    intra-SQUID routine raises nothing: it ignores the surplus id and
    writes the timestream back. *)
Lemma longer_squid_ids_accepted :
  length ["a"; "b"]%string <> length [[1]] /\
  snd (inject_crosstalk_inside_SQUID (fun _ _ => 0)
         (fun tsout _ _ _ _ _ _ _ _ => tsout)
         (Buffers [[1]] None) ["a"; "b"]%string [0%Z] (-3) 1 1 2 5438765
         "python") = None.
Proof. split; [discriminate | reflexivity]. Qed.

(** C3, as the code has it. A crosstalk routine given a SQUID-id or a
    channel array shorter than the timestream array raises [IndexError]
    and leaves both buffers as they were; the projector given a pointing
    matrix whose shape is not that of [out] fails its first assertion
    and leaves [out] as it was. *)
Theorem mismatch_raises_before_mutation
  (gauss : Z -> nat -> R)
  (inject_crosstalk_inside_squid_f :
     tod -> list Z -> list nat -> Z -> list R -> Z -> nat -> nat -> nat ->
     tod) :
  (forall b squid_ids bolo_ids mu sigma radius beta seed language,
     (length squid_ids < length (bolo_data b))%nat \/
     (length bolo_ids < length (bolo_data b))%nat ->
     inject_crosstalk_inside_SQUID gauss inject_crosstalk_inside_squid_f
       b squid_ids bolo_ids mu sigma radius beta seed language =
     (b, Some IndexError)) /\
  (forall b squid_ids bolo_ids mu sigma att seed,
     (length squid_ids < length (bolo_data b))%nat \/
     (length bolo_ids < length (bolo_data b))%nat ->
     inject_crosstalk_SQUID_to_SQUID gauss b squid_ids bolo_ids mu sigma
       att seed = (b, Some IndexError)) /\
  (forall out I pm bo K,
     shape2 pm <> shape2 out ->
     diffbeam_map2tod out I pm bo K = (out, Some AssertionError)).
Proof.
  split; [|split].
  - intros b squid_ids bolo_ids mu sigma radius beta seed language H.
    unfold inject_crosstalk_inside_SQUID, inside_tsout.
    now rewrite (call_combs_short _ _ _ H).
  - intros b squid_ids bolo_ids mu sigma att seed H.
    unfold inject_crosstalk_SQUID_to_SQUID, s2s_tsout.
    now rewrite (call_combs_short _ _ _ H).
  - intros out I pm bo K H. unfold diffbeam_map2tod.
    destruct (shape_eqb (shape2 pm) (shape2 out)) eqn:E; auto.
    apply shape_eqb_eq in E. contradiction.
Qed.

(** ** Further properties of the dictionary of SQUIDs *)









(** ** Further properties of the leakage projector *)







(** ** Further properties of the injection into the pairs *)



(** ** Further properties of the crosstalk network *)



(** ** Further properties of the kernels on float64 *)



(** ** The model at small inputs *)

(** Splits an equation between lists of reals into its entries. *)
Ltac entries :=
  repeat first [apply (f_equal2 (@cons R)) | apply (f_equal2 (@cons (list R)))];
  try reflexivity.

Example xderiv_row : xderiv [[1; 2; 4]] 1 = [[-1; - (3 / 2); 1]].
Proof.
  unfold xderiv, neg2, convolve2d_same, at2. cbn. simpl. entries; lra.
Qed.

Example yderiv_column :
  yderiv [[1]; [2]; [4]] 1 = [[-1]; [- (3 / 2)]; [1]].
Proof.
  unfold yderiv, neg2, convolve2d_same, at2. cbn. simpl. entries; lra.
Qed.

Example fixspin_spin_1 :
  fixspin (Kernel 1 2 3 4 5 6) "1" = Kernel 0 2 3 0 0 0.
Proof. unfold fixspin, kadd; cbn. f_equal; lra. Qed.

Example rotate_deriv_quarter_turn :
  rotate_deriv (Kernel 1 2 3 4 5 6) (PI / 2) = Kernel 1 (-3) 2 (-4) 6 5.
Proof.
  unfold rotate_deriv; cbn. rewrite cos_PI2, sin_PI2. f_equal; lra.
Qed.

Example waferts_add_diffbeam_pair :
  waferts_add_diffbeam [[1; 2]; [3; 4]] [[0%Z; (-1)%Z]] [[0; 0]]
    [[5]; [0]; [0]; [0]; [7]; [0]] [Kernel 0 0 0 0 1 1] [(0%nat, 1%nat)]
    "012" = ([[8; 2]; [-4; 4]], None).
Proof.
  unfold waferts_add_diffbeam, diffbeam_map2tod. cbn.
  rewrite Ropp_0, cos_0, sin_0. f_equal. entries; lra.
Qed.

(** ** The theorems at concrete inputs *)

(** The generator of the examples only draws zeros; the Fortran kernel
    is one that leaves [tsout] alone, or the kernel of the
    specification; the cosine and the sine of the float64 examples are
    the expansions [1 - t * t / 2] and [t]. *)

Lemma split_deriv_unit_zero :
  split_deriv [[1]] [[0]] 1 [0; 0; 0; 0; 0; 0].
Proof.
  unfold split_deriv. rewrite split_deriv_A_unit_map.
  unfold split_deriv_b, flatten; simpl.
  split; [reflexivity|]. split; [reflexivity|]. split.
  - intros y _. unfold residual at 1, dot, vmul; simpl.
    pose proof (residual_nonneg [[1; 0; 0; 0; 0; 0]] [0] y). lra.
  - intros y Hlen _.
    destruct y as [|y0 [|y1 [|y2 [|y3 [|y4 [|y5 [|]]]]]]];
      try discriminate.
    unfold norm2, dot, vmul; simpl. nra.
Qed.

Lemma split_deriv_exactness_witness :
  (split_deriv [[1; 2]; [3; 4]] [[0; 0]; [0; 0]] 1 [0; 0; 0; 0; 0; 0] /\
   forall x, split_deriv [[1; 2]; [3; 4]] [[0; 0]; [0; 0]] 1 x ->
             x = [0; 0; 0; 0; 0; 0]) /\
  (residual (split_deriv_A [[1; 2]; [3; 4]] 1)
     (split_deriv_b [[1; 2]; [3; 4]]) [1; 0; 0; 0; 0; 0] = 0 /\
   ~ split_deriv [[1; 2]; [3; 4]] [[1; 2]; [3; 4]] 1 [0; 0; 0; 0; 0; 0]).
Proof.
  split.
  - apply (split_deriv_exactness [[1; 2]; [3; 4]] [[0; 0]; [0; 0]] 1);
      repeat constructor.
  - pose proof (split_deriv_exactness [[1; 2]; [3; 4]] [[1; 2]; [3; 4]] 1
                  eq_refl ltac:(repeat constructor)) as [_ H].
    destruct (H eq_refl) as [Hfit Hzero]. split; [exact Hfit|].
    apply Hzero. intros Hall. inversion Hall; lra.
Defined.

Lemma mismatch_raises_before_mutation_witness :
  inject_crosstalk_inside_SQUID (fun _ _ => 0)
    (fun tsout _ _ _ _ _ _ _ _ => tsout)
    (Buffers [[1]; [2]] None) ["a"]%string [0; 1]%Z (-3) 1 1 2 5438765
    "python" = (Buffers [[1]; [2]] None, Some IndexError) /\
  inject_crosstalk_SQUID_to_SQUID (fun _ _ => 0)
    (Buffers [[1]; [2]] None) ["a"; "b"]%string [0%Z] (-3) 1 100 5438765 =
    (Buffers [[1]; [2]] None, Some IndexError) /\
  diffbeam_map2tod [[0; 0]] [[1]; [0]; [0]; [0]; [0]; [0]] [[0%Z]]
    [[0; 0]] [Kernel 0 1 0 0 0 0] = ([[0; 0]], Some AssertionError).
Proof.
  pose proof (mismatch_raises_before_mutation (fun _ _ => 0)
                (fun tsout _ _ _ _ _ _ _ _ => tsout)) as [H1 [H2 H3]].
  split; [|split].
  - apply H1. simpl. lia.
  - apply H2. simpl. lia.
  - apply H3. simpl. discriminate.
Defined.

Lemma diffbeam_map2tod_samples_witness :
  let out := [[10; 20]] in
  let stack := [[1; 2]; [0; 0]; [0; 0]; [0; 0]; [0; 0]; [0; 0]] in
  let pm := [[(-1)%Z; 1%Z]] in
  let bo := [[0; 0]] in
  let K := [Kernel 1 0 0 0 0 0] in
  let out' := fst (diffbeam_map2tod out stack pm bo K) in
  nth_error (get_row out' 0) 0 = Some 10 /\
  exists leak,
    leakage stack (Kernel 1 0 0 0 0 0) 0 1 = Ok leak /\
    nth_error (get_row out' 0) 1 = Some (20 + leak).
Proof.
  cbv zeta.
  set (out := [[10; 20]]).
  set (stack := [[1; 2]; [0; 0]; [0; 0]; [0; 0]; [0; 0]; [0; 0]]).
  set (pm := [[(-1)%Z; 1%Z]]).
  set (bo := [[0; 0]]).
  set (K := [Kernel 1 0 0 0 0 0]).
  assert (Hro : rect (snd (shape2 out)) out) by (repeat constructor).
  assert (Hrp : rect (snd (shape2 out)) pm) by (repeat constructor).
  assert (Hrb : rect (snd (shape2 out)) bo) by (repeat constructor).
  assert (Hrun : diffbeam_map2tod out stack pm bo K =
                 (fst (diffbeam_map2tod out stack pm bo K), None))
    by reflexivity.
  split.
  - apply (diffbeam_map2tod_samples out stack pm bo K _ Hro Hrp Hrb Hrun
             0%nat 0%nat (-1)%Z 0 10); reflexivity.
  - apply (diffbeam_map2tod_samples out stack pm bo K _ Hro Hrp Hrb Hrun
             0%nat 1%nat 1%Z 0 20); try reflexivity. discriminate.
Defined.

Lemma SQUID_to_SQUID_single_SQUID_noop_witness :
  inject_crosstalk_SQUID_to_SQUID (fun _ _ => 0)
    (Buffers [[1]; [2]] None) ["a"; "a"]%string [0; 1]%Z (-3) 1 100
    5438765 = (Buffers [[1]; [2]] None, None).
Proof.
  apply (SQUID_to_SQUID_single_SQUID_noop (fun _ _ => 0)
           (Buffers [[1]; [2]] None) ["a"; "a"]%string [0; 1]%Z (-3) 1
           100 5438765%Z "a"%string).
  - intros [|[|bolo]] H; simpl in *; try reflexivity; lia.
  - simpl; lia.
Defined.

Lemma inside_SQUID_noop_witness :
  (let r := inject_crosstalk_inside_SQUID (fun _ _ => 0)
              inject_crosstalk_inside_squid_f_spec
              (Buffers [[1]; [2]; [3]] None) ["a"; "b"; "b"]%string
              [0; 0; 1]%Z (-3) 1 0 2 5438765 "fortran" in
   snd r = None /\ delivered (fst r) = [[1]; [2]; [3]]) /\
  (let r := inject_crosstalk_inside_SQUID (fun _ _ => 0)
              inject_crosstalk_inside_squid_f_spec
              (Buffers [[1]; [2]; [3]] (Some [[0]; [0]; [0]]))
              ["a"; "b"; "b"]%string [0; 0; 1]%Z (-3) 1 1 2 5438765
              "python" in
   snd r = None /\ get_row (delivered (fst r)) 0 = [1]).
Proof.
  pose proof (inside_SQUID_noop (fun _ _ => 0)
                (Buffers [[1]; [2]; [3]] None) ["a"; "b"; "b"]%string
                [0; 0; 1]%Z (-3) 1 0%Z 2%Z 5438765%Z "fortran"%string I)
    as [H0 [H1 _]].
  pose proof (inside_SQUID_noop (fun _ _ => 0)
                (Buffers [[1]; [2]; [3]] (Some [[0]; [0]; [0]]))
                ["a"; "b"; "b"]%string [0; 0; 1]%Z (-3) 1 1%Z 2%Z
                5438765%Z "python"%string eq_refl)
    as [H2 [_ H3]].
  cbv zeta in *. split.
  - assert (Hdone := H0 ltac:(simpl; lia) ltac:(simpl; lia)).
    split; [exact Hdone|]. exact (proj2 (H1 eq_refl) Hdone).
  - assert (Hdone := H2 ltac:(simpl; lia) ltac:(simpl; lia)).
    split; [exact Hdone|].
    apply (H3 0%nat "a"%string); [simpl; lia | reflexivity | | exact Hdone].
    intros [|[|[|j]]] Hj Hne; simpl in *; try lia; discriminate.
Defined.

Lemma rotate_deriv_round_trip_witness :
  F64.keqb
    (F64.rotate_deriv (fun t => 1 - t * t * 0.5)%float (fun t => t)
       (F64.Kernel 1 2 3 4 5 6) 0)
    (F64.Kernel 1 2 3 4 5 6) = true.
Proof.
  apply (proj1 rotate_deriv_round_trip
           (fun t => 1 - t * t * 0.5)%float (fun t => t)
           (F64.Kernel 1 2 3 4 5 6) 0%float); try reflexivity.
  exists false. reflexivity.
Defined.

Lemma waferts_add_diffbeam_pair_sum_witness :
  (let r := F64.waferts_add_diffbeam (fun t => 1 - t * t * 0.5)%float
              (fun t => t) [[0.1]; [0.2]]%float [[0%Z]] [[0%float]]
              [[0]; [0]; [0]; [0]; [0.7]; [0]]%float
              [F64.Kernel 0 0 0 0 1 1] [(0%nat, 1%nat)] "012" in
   snd r = None /\
   exists leak,
     F64.diffbeam_map2tod (fun t => 1 - t * t * 0.5)%float (fun t => t)
       [[0%float]] [[0]; [0]; [0]; [0]; [0.7]; [0]]%float [[0%Z]]
       [[0%float]]
       (map (fun Ki => F64.fixspin Ki "012")
          (map F64.detector_frame [F64.Kernel 0 0 0 0 1 1])) =
       (leak, None) /\
     forall k t, (2 * k + 1 < 2)%nat ->
       nth t (F64.get_row (fst r) (2 * k)) 0%float =
         (nth t (F64.get_row [[0.1]; [0.2]] (2 * k)) 0 +
          nth t (F64.get_row leak k) 0)%float /\
       nth t (F64.get_row (fst r) (2 * k + 1)) 0%float =
         (nth t (F64.get_row [[0.1]; [0.2]] (2 * k + 1)) 0 -
          nth t (F64.get_row leak k) 0)%float) /\
  (let r := waferts_add_diffbeam [[1; 2]; [3; 4]] [[0%Z; (-1)%Z]]
              [[0; 0]] [[5]; [0]; [0]; [0]; [7]; [0]]
              [Kernel 0 0 0 0 1 1] [(0%nat, 1%nat)] "012" in
   snd r = None /\
   nth 0 (get_row (fst r) 0) 0 + nth 0 (get_row (fst r) 1) 0 = 1 + 3).
Proof.
  cbv zeta. split.
  - split; [reflexivity|].
    apply (proj1 waferts_add_diffbeam_pair_sum
             (fun t => 1 - t * t * 0.5)%float (fun t => t)
             [[0.1]; [0.2]]%float [[0%Z]] [[0%float]]
             [[0]; [0]; [0]; [0]; [0.7]; [0]]%float
             [F64.Kernel 0 0 0 0 1 1] [(0%nat, 1%nat)] "012"%string
             ltac:(repeat constructor)).
    reflexivity.
  - split; [reflexivity|].
    apply (proj2 waferts_add_diffbeam_pair_sum [[1; 2]; [3; 4]]
             [[0%Z; (-1)%Z]] [[0; 0]] [[5]; [0]; [0]; [0]; [7]; [0]]
             [Kernel 0 0 0 0 1 1] [(0%nat, 1%nat)] "012"%string
             ltac:(repeat constructor) 0%nat 0%nat).
    simpl; lia.
Defined.





